(** * SchedulerShowdown: the four scheduling policies of [schedulers.cpp]

    A shallow embedding of [RoundRobin], [ShortestProcessNext],
    [ShortestRemainingTime] and [HighestResponseRatioNext], with the
    function-local [static] variables turned into an explicit state that is
    passed in and returned.

    Conventions of the model.
    - [int] values are integers of [Z]; the rosters considered keep every
      [int] expression of the code inside the range of [int], so no signed
      overflow is modelled.
    - [float] is IEEE binary32 ([prec = 24], [emax = 128]), every operation
      rounded to nearest-even, as [SpecFloat] specifies it.
    - An access the C++ standard leaves undefined ([ready[0]] on an empty
      deque, [procList[i]] with [i] past the end) makes the call return
      [None]. *)

From Stdlib Require Import ZArith QArith.QArith_base Sorting.Sorted Lia.
From Stdlib.Floats Require Import SpecFloat.
From stdpp Require Import base option list.

Local Open Scope Z_scope.

(** ** Data model *)

(** Modelled from the spec: the [Process] struct of [schedulers.h], which is
    not among the sources.  Section 3 gives it three integer fields and a
    boolean flag; the names are the ones [schedulers.cpp] reads. *)
Record Process : Type := mkProcess {
  startTime : Z;
  totalTimeNeeded : Z;
  timeScheduled : Z;
  isDone : bool
}.

(** ** Single precision arithmetic *)

Module F32.

Definition prec : Z := 24.
Definition emax : Z := 128.

(** Conversion [int -> float]. *)
Definition of_int (z : Z) : spec_float := binary_normalize prec emax z 0 false.

Definition add : spec_float -> spec_float -> spec_float := SFadd prec emax.
Definition div : spec_float -> spec_float -> spec_float := SFdiv prec emax.
Definition ltb : spec_float -> spec_float -> bool := SFltb.
Definition leb : spec_float -> spec_float -> bool := SFleb.

Definition is_nan (f : spec_float) : bool :=
  match f with S754_nan => true | _ => false end.

(** The order of [SFcompare] on the floats that are not NaN, read off
    their representation: the class first (infinities, sign, zero), then
    exponent and mantissa. *)
Definition rank (f : spec_float) : Z * Z * Z :=
  match f with
  | S754_zero _ => (0, 0, 0)
  | S754_nan => (0, 0, 0)
  | S754_infinity false => (2, 0, 0)
  | S754_infinity true => (-2, 0, 0)
  | S754_finite false m e => (1, e, Zpos m)
  | S754_finite true m e => (-1, - e, Zneg m)
  end.

Definition lex_lt (a b : Z * Z * Z) : Prop :=
  a.1.1 < b.1.1 \/
  (a.1.1 = b.1.1 /\ (a.1.2 < b.1.2 \/ (a.1.2 = b.1.2 /\ a.2 < b.2))).

End F32.

(** ** Round Robin *)

(** The statics of [RoundRobin]. *)
Record RRStatics : Type := mkRR {
  timeToNextSched : Z;
  ready : list nat
}.

(** [static int timeToNextSched = timeQuantum; static deque<int> ready;]
    The initialisers run once, with the quantum of the first call: these are
    the statics that the first call finds. *)
Definition RR_fresh (timeQuantum : Z) : RRStatics := mkRR timeQuantum [].

(** The first loop of [RoundRobin], which appends the processes that are
    newly ready to the queue; [rest] is [procList] from position [i] on. *)
Fixpoint newly_ready (curTime : Z) (rest : list Process) (i : nat)
    (ready : list nat) : list nat :=
  match rest with
  | [] => ready
  | p :: rest' =>
      newly_ready curTime rest' (S i)
        (if startTime p =? curTime then ready ++ [i] else ready)
  end.

(** [procList[ready[0]].isDone]; both subscripts are unchecked. *)
Definition head_isDone (procList : list Process) (ready : list nat) : option bool :=
  i ← ready !! 0%nat; p ← procList !! i; Some (isDone p).

Definition RoundRobin (curTime : Z) (procList : list Process) (timeQuantum : Z)
    (s : RRStatics) : option (Z * RRStatics) :=
  let ready1 := newly_ready curTime procList 0 (ready s) in
  (* timeToNextSched == 0 || procList[ready[0]].isDone *)
  rotate ← (if timeToNextSched s =? 0 then Some true
            else head_isDone procList ready1);
  '(timeToNextSched2, ready2) ←
    (if (rotate : bool) then
       done ← head_isDone procList ready1;
       let pushed := if negb done then ready1 ++ take 1 ready1 else ready1 in
       Some (timeQuantum, tail pushed)
     else Some (timeToNextSched s, ready1));
  Some (match ready2 with
        | idx :: _ => (Z.of_nat idx, mkRR (timeToNextSched2 - 1) ready2)
        | [] => (-1, mkRR 0 ready2)
        end).

(** ** The three selection policies *)

(** The statics [index] and [runTime] that each of the three functions
    declares for itself. *)
Record Statics : Type := mkStatics {
  index : nat;
  runTime : Z
}.

(** [static int index = 0; static int runTime = 0;] *)
Definition fresh : Statics := mkStatics 0 0.

(** The first loop, the same text in the three functions: the first process
    that is not done and has arrived, when [runTime == 0]; [break] leaves the
    loop at the first hit. *)
Fixpoint first_ready (curTime runTime : Z) (rest : list Process) (y index : nat)
  : nat :=
  match rest with
  | [] => index
  | p :: rest' =>
      if negb (isDone p) && (startTime p <=? curTime) && (runTime =? 0)
      then y
      else first_ready curTime runTime rest' (S y) index
  end.

(** The closing loop, the same text in the three functions. *)
Fixpoint count_done (rest : list Process) (count : nat) : nat :=
  match rest with
  | [] => count
  | p :: rest' => count_done rest' (if isDone p then S count else count)
  end.

(** What the three functions return after their loops. *)
Definition decision (procList : list Process) (index : nat) : Z :=
  if Nat.eqb (count_done procList 0) (length procList) then -1
  else Z.of_nat index.

(** *** Shortest Process Next *)

(** The second loop of [ShortestProcessNext]; [&&] evaluates
    [procList[index]] only after [startTime <= curTime] held. *)
Fixpoint spn_scan (curTime runTime : Z) (procList rest : list Process)
    (x index : nat) : option nat :=
  match rest with
  | [] => Some index
  | px :: rest' =>
      index' ←
        (if startTime px <=? curTime then
           pi ← procList !! index;
           Some (if (totalTimeNeeded px <? totalTimeNeeded pi)
                    && negb (isDone px) && (runTime =? 0)
                 then x else index)
         else Some index);
      spn_scan curTime runTime procList rest' (S x) index'
  end.

Definition ShortestProcessNext (curTime : Z) (procList : list Process)
    (st : Statics) : option (Z * Statics) :=
  p ← procList !! index st;
  let runTime1 := if isDone p then 0 else runTime st in
  let index1 := first_ready curTime runTime1 procList 0 (index st) in
  index2 ← spn_scan curTime runTime1 procList procList 0 index1;
  Some (decision procList index2, mkStatics index2 (runTime1 + 1)).

(** *** Shortest Remaining Time *)

Definition timeRemaining (p : Process) : spec_float :=
  F32.of_int (totalTimeNeeded p - timeScheduled p).

Fixpoint srt_scan (curTime runTime : Z) (procList rest : list Process)
    (x index : nat) : option nat :=
  match rest with
  | [] => Some index
  | px :: rest' =>
      pi ← procList !! index;
      let indexTimeRemaining := timeRemaining pi in
      let xTimeRemaining := timeRemaining px in
      srt_scan curTime runTime procList rest' (S x)
        (if (startTime px <=? curTime)
            && F32.ltb xTimeRemaining indexTimeRemaining
            && negb (isDone px) && (runTime =? 0)
         then x else index)
  end.

(** [timeQuantum] is not read, and [runTime++] is commented out in the
    source: the counter is only ever assigned 0. *)
Definition ShortestRemainingTime (curTime : Z) (procList : list Process)
    (timeQuantum : Z) (st : Statics) : option (Z * Statics) :=
  p ← procList !! index st;
  let runTime1 := if isDone p then 0 else runTime st in
  let index1 := first_ready curTime runTime1 procList 0 (index st) in
  index2 ← srt_scan curTime runTime1 procList procList 0 index1;
  Some (decision procList index2, mkStatics index2 runTime1).

(** *** Highest Response Ratio Next *)

Definition timeSpentWaiting (curTime : Z) (p : Process) : spec_float :=
  F32.of_int (curTime - startTime p - timeScheduled p).

Definition ratio (curTime : Z) (p : Process) : spec_float :=
  F32.div (F32.add (timeSpentWaiting curTime p) (F32.of_int (totalTimeNeeded p)))
          (F32.of_int (totalTimeNeeded p)).

Fixpoint hrrn_scan (curTime runTime : Z) (procList rest : list Process)
    (x index : nat) : option nat :=
  match rest with
  | [] => Some index
  | px :: rest' =>
      pi ← procList !! index;
      let xRatio := ratio curTime px in
      let indexRatio := ratio curTime pi in
      hrrn_scan curTime runTime procList rest' (S x)
        (if (startTime px <=? curTime)
            && F32.ltb indexRatio xRatio
            && negb (isDone px) && (runTime =? 0)
         then x else index)
  end.

Definition HighestResponseRatioNext (curTime : Z) (procList : list Process)
    (st : Statics) : option (Z * Statics) :=
  p ← procList !! index st;
  let runTime1 := if isDone p then 0 else runTime st in
  let index1 := first_ready curTime runTime1 procList 0 (index st) in
  index2 ← hrrn_scan curTime runTime1 procList procList 0 index1;
  Some (decision procList index2, mkStatics index2 (runTime1 + 1)).

(** ** The simulation driver *)

(** Modelled from the spec: the driver that calls the policies is not among
    the sources.  Section 6: ticks are consecutive, and before the next call
    the process that was run gets [timeScheduled] incremented and [isDone]
    set when [timeScheduled] reaches [totalTimeNeeded]. *)
Definition run_one_tick (p : Process) : Process :=
  let ts := timeScheduled p + 1 in
  mkProcess (startTime p) (totalTimeNeeded p) ts
            (if ts =? totalTimeNeeded p then true else isDone p).

(** Modelled from the spec: a decision that is not a roster index ([-1])
    leaves the roster as it is. *)
Definition apply_decision (idx : Z) (procList : list Process) : list Process :=
  if 0 <=? idx then alter run_one_tick (Z.to_nat idx) procList else procList.

Definition all_done (procList : list Process) : bool := forallb isDone procList.

Section Driver.
Context {St : Type}.
Variable step : Z -> list Process -> St -> option (Z * St).

(** Modelled from the spec: [ticks] consecutive calls from [curTime] on,
    each decision applied before the next call.  The result is the list of
    decisions with the roster and the statics after the last tick. *)
Fixpoint drive (ticks : nat) (curTime : Z) (procList : list Process) (st : St)
  : option (list Z * list Process * St) :=
  match ticks with
  | O => Some ([], procList, st)
  | S ticks' =>
      '(idx, st') ← step curTime procList st;
      '(ds, procList', st'') ←
        drive ticks' (curTime + 1) (apply_decision idx procList) st';
      Some (idx :: ds, procList', st'')
  end.
End Driver.

(** ** The skeleton the three selection policies share *)

(** A process that has arrived and is not done. *)
Definition eligible (curTime : Z) (p : Process) : bool :=
  negb (isDone p) && (startTime p <=? curTime).

Section Skeleton.
(** [beats curTime px pi]: the comparison of the second loop, the one
    place where the three functions differ; [bump] is what the function
    adds to [runTime] after its loops. *)
Variable beats : Z -> Process -> Process -> bool.
Variable bump : Z.

Fixpoint scan (curTime runTime : Z) (procList rest : list Process)
    (x index : nat) : option nat :=
  match rest with
  | [] => Some index
  | px :: rest' =>
      pi ← procList !! index;
      scan curTime runTime procList rest' (S x)
        (if (startTime px <=? curTime) && beats curTime px pi
            && negb (isDone px) && (runTime =? 0)
         then x else index)
  end.

Definition select (curTime : Z) (procList : list Process) (st : Statics)
  : option (Z * Statics) :=
  p ← procList !! index st;
  let runTime1 := if isDone p then 0 else runTime st in
  let index1 := first_ready curTime runTime1 procList 0 (index st) in
  index2 ← scan curTime runTime1 procList procList 0 index1;
  Some (decision procList index2, mkStatics index2 (runTime1 + bump)).
End Skeleton.

Definition spn_beats (_ : Z) (px pi : Process) : bool :=
  totalTimeNeeded px <? totalTimeNeeded pi.
Definition srt_beats (_ : Z) (px pi : Process) : bool :=
  F32.ltb (timeRemaining px) (timeRemaining pi).
Definition hrrn_beats (curTime : Z) (px pi : Process) : bool :=
  F32.ltb (ratio curTime pi) (ratio curTime px).

(** [r] is the choice among the first [x] roster entries: eligible, beaten by
    no eligible entry before [x], and beating every eligible entry before
    itself. *)
Definition best_upto (beats : Z -> Process -> Process -> bool) (curTime : Z)
    (procList : list Process) (x r : nat) : Prop :=
  exists pr, procList !! r = Some pr /\ eligible curTime pr = true /\
    (forall j pj, (j < x)%nat -> procList !! j = Some pj ->
       eligible curTime pj = true -> beats curTime pj pr = false) /\
    (forall j pj, (j < r)%nat -> procList !! j = Some pj ->
       eligible curTime pj = true -> beats curTime pr pj = true).

(** ** Properties of one call, as the theorems state them *)

(** A series of calls with the ticks and rosters the caller chooses; the
    decisions are collected. *)
Fixpoint run_calls {St : Type} (step : Z -> list Process -> St -> option (Z * St))
    (calls : list (Z * list Process)) (st : St) : option (list Z) :=
  match calls with
  | [] => Some []
  | (curTime, procList) :: calls' =>
      '(idx, st') ← step curTime procList st;
      ds ← run_calls step calls' st';
      Some (idx :: ds)
  end.

(** Process [i] is in the roster and not done. *)
Definition not_done_at (i : nat) (procList : list Process) : Prop :=
  exists p, procList !! i = Some p /\ isDone p = false.

(** The call is defined and stores an index that lies in the roster; it
    answers -1 exactly for a roster that is all done, and otherwise answers
    the index it stores. *)
Definition sentinel_ok (procList : list Process) (res : option (Z * Statics))
  : Prop :=
  exists d st', res = Some (d, st') /\
    (index st' < length procList)%nat /\
    (d = -1 <-> all_done procList = true) /\
    (all_done procList = false -> d = Z.of_nat (index st')).

(** At a decision point with an eligible process in the roster, the call
    answers an eligible process and stores its index. *)
Definition eligible_ok (curTime : Z) (procList : list Process) (st : Statics)
    (res : option (Z * Statics)) : Prop :=
  forall p, procList !! index st = Some p ->
    isDone p = true \/ runTime st = 0 ->
    (exists j pj, procList !! j = Some pj /\ eligible curTime pj = true) ->
    exists r pr st', res = Some (Z.of_nat r, st') /\ index st' = r /\
      procList !! r = Some pr /\ eligible curTime pr = true.

(** While the selected process is not done and the run counter is not 0,
    the call answers the selected process and keeps it selected. *)
Definition held_ok (procList : list Process) (st : Statics)
    (res : option (Z * Statics)) : Prop :=
  forall p, procList !! index st = Some p -> isDone p = false ->
    runTime st <> 0 ->
    exists st', res = Some (Z.of_nat (index st), st') /\ index st' = index st
      /\ runTime st' = runTime st + 1.

(** The response ratio as the spec writes it, an exact rational:
    (waiting time + service time) / service time. *)
Definition R_spec (curTime : Z) (p : Process) : Q :=
  Qmake (curTime - startTime p - timeScheduled p + totalTimeNeeded p)
        (Z.to_pos (totalTimeNeeded p)).

(** Every [int] of the entry that [HighestResponseRatioNext] converts to
    [float] is in the range of [int], and the divisor is positive. *)
Definition ratio_defined (curTime : Z) (p : Process) : Prop :=
  0 < totalTimeNeeded p < 2 ^ 31
  /\ - 2 ^ 31 <= curTime - startTime p - timeScheduled p < 2 ^ 31.

(** The decisions of a driven run, and the [isDone] flags it ends with. *)
Definition decisions {St : Type} (r : option (list Z * list Process * St))
  : option (list Z) :=
  match r with Some (ds, _, _) => Some ds | None => None end.

Definition done_flags {St : Type} (r : option (list Z * list Process * St))
  : option (list bool) :=
  match r with Some (_, l, _) => Some (map isDone l) | None => None end.

(** The processor time a process still asks for, the sum over a roster, and
    the last arrival of a roster. *)
Definition work_left (p : Process) : Z :=
  if isDone p then 0 else totalTimeNeeded p - timeScheduled p.

Definition total_work_left (procList : list Process) : Z :=
  foldr (fun p acc => work_left p + acc) 0 procList.

Definition last_arrival (procList : list Process) : Z :=
  foldr (fun p acc => Z.max (startTime p) acc) 0 procList.

(** The invariant of section 3, as far as a run needs it: a process that
    is not done has not used up its [totalTimeNeeded]. *)
Definition consistent (p : Process) : Prop :=
  isDone p = false -> timeScheduled p < totalTimeNeeded p.

(** The ticks a driven run can take from [curTime] on: the work that is
    left, and the wait for the last arrival. *)
Definition run_bound (curTime : Z) (procList : list Process) : Z :=
  total_work_left procList + Z.max 0 (last_arrival procList - curTime).

(** The ticks of a run at which a process was the decision, and the
    processor time the roster asks for. *)
Definition run_ticks (ds : list Z) : nat := length (filter (fun d => 0 <= d) ds).

Definition total_need (procList : list Process) : Z :=
  foldr (fun p acc => totalTimeNeeded p + acc) 0 procList.

(** A roster entry as the scenarios write it: arrival and need, nothing
    scheduled yet. *)
Definition P (arrival need : Z) : Process := mkProcess arrival need 0 false.


(** ** Round Robin: the queue over several calls *)

(** The indices of the roster entries from position [i] on whose
    [startTime] is [curTime], in roster order: what the first loop of
    [RoundRobin] appends. *)
Fixpoint arrivals (curTime : Z) (rest : list Process) (i : nat) : list nat :=
  match rest with
  | [] => []
  | p :: rest' =>
      if startTime p =? curTime then i :: arrivals curTime rest' (S i)
      else arrivals curTime rest' (S i)
  end.

(** [RoundRobin] with its quantum fixed, as a driver calls it. *)
Definition rr_step (timeQuantum : Z)
  : Z -> list Process -> RRStatics -> option (Z * RRStatics) :=
  fun curTime procList s => RoundRobin curTime procList timeQuantum s.

(** A series of calls as [run_calls] makes it, with the statics after the
    last call. *)
Fixpoint run_calls_state {St : Type}
    (step : Z -> list Process -> St -> option (Z * St))
    (calls : list (Z * list Process)) (st : St) : option (list Z * St) :=
  match calls with
  | [] => Some ([], st)
  | (curTime, procList) :: calls' =>
      '(idx, st') ← step curTime procList st;
      '(ds, st'') ← run_calls_state step calls' st';
      Some (idx :: ds, st'')
  end.

(** Everything that arrives during a series of calls, in order. *)
Definition arrivals_of_calls (calls : list (Z * list Process)) : list nat :=
  flat_map (fun c => arrivals c.1 c.2 0) calls.

(** A call at which nothing arrives and no queued process is done. *)
Definition quiet_call (rd : list nat) (c : Z * list Process) : Prop :=
  arrivals c.1 c.2 0 = [] /\ forall i, i ∈ rd -> not_done_at i c.2.

(** What a driven run keeps true before each call of [RoundRobin]: the
    queue has no duplicates and holds processes that arrived before this
    tick; only its head can be done; a process that has not arrived is not
    done. *)
Definition rr_inv (curTime : Z) (procList : list Process) (s : RRStatics)
  : Prop :=
  NoDup (ready s)
  /\ (forall i, i ∈ ready s ->
        exists p, procList !! i = Some p /\ startTime p < curTime)
  /\ (forall i, i ∈ tail (ready s) -> not_done_at i procList)
  /\ (forall p, p ∈ procList -> curTime <= startTime p -> isDone p = false)
  /\ Forall consistent procList.
(** * Lemmas *)

(** ** Lists *)

Lemma drop_cons_inv {A} (l : list A) (x : nat) (a : A) (r : list A) :
  drop x l = a :: r -> l !! x = Some a /\ drop (S x) l = r.
Proof.
  intros H.
  assert (Ha : l !! x = Some a).
  { rewrite <- (Nat.add_0_r x), <- lookup_drop, H. reflexivity. }
  split; [exact Ha|].
  rewrite (drop_S _ _ _ Ha) in H. congruence.
Qed.

(** ** The closing loop *)

Lemma count_done_bound (l : list Process) (c : nat) :
  (count_done l c <= c + length l)%nat.
Proof.
  revert c. induction l as [|p l IH]; intros c; simpl; [lia|].
  specialize (IH (if isDone p then S c else c)). destruct (isDone p); lia.
Qed.

Lemma count_done_full (l : list Process) (c : nat) :
  count_done l c = (c + length l)%nat <-> all_done l = true.
Proof.
  revert c. induction l as [|p l IH]; intros c; simpl.
  - split; [reflexivity|lia].
  - destruct (isDone p) eqn:Hp; simpl.
    + rewrite <- (IH (S c)). split; lia.
    + split; [|discriminate]. intros H.
      pose proof (count_done_bound l c). lia.
Qed.

Lemma decision_all_done (l : list Process) (i : nat) :
  all_done l = true -> decision l i = -1.
Proof.
  intros H. unfold decision.
  apply (count_done_full l 0) in H. rewrite H. simpl.
  rewrite Nat.eqb_refl. reflexivity.
Qed.

Lemma decision_index (l : list Process) (i : nat) :
  all_done l = false -> decision l i = Z.of_nat i.
Proof.
  intros H. unfold decision.
  destruct (Nat.eqb_spec (count_done l 0) (length l)) as [E|E]; [|reflexivity].
  apply (count_done_full l 0) in E. congruence.
Qed.

Lemma all_done_lookup (l : list Process) (i : nat) (p : Process) :
  l !! i = Some p -> isDone p = false -> all_done l = false.
Proof.
  intros Hl Hp. destruct (all_done l) eqn:E; [|reflexivity].
  unfold all_done in E. rewrite forallb_forall in E.
  apply list_elem_of_lookup_2, list_elem_of_In in Hl.
  rewrite (E _ Hl) in Hp. discriminate.
Qed.

(** ** The first loop *)

Lemma first_ready_running (curTime runTime : Z) (rest : list Process) (y c : nat) :
  runTime <> 0 -> first_ready curTime runTime rest y c = c.
Proof.
  intros Hr. revert y. induction rest as [|p rest IH]; intros y; simpl; [reflexivity|].
  destruct (Z.eqb_spec runTime 0); [contradiction|].
  rewrite andb_false_r. apply IH.
Qed.

Lemma first_ready_spec (curTime : Z) (rest : list Process) (y c : nat) :
  let r := first_ready curTime 0 rest y c in
  (r = c /\ forall k p, rest !! k = Some p -> eligible curTime p = false)
  \/ (exists k p, r = (y + k)%nat /\ rest !! k = Some p /\ eligible curTime p = true
        /\ forall j q, (j < k)%nat -> rest !! j = Some q -> eligible curTime q = false).
Proof.
  revert y. induction rest as [|p rest IH]; intros y; simpl.
  - left. split; [reflexivity|]. intros k q Hk. discriminate.
  - rewrite andb_true_r. fold (eligible curTime p).
    destruct (eligible curTime p) eqn:Ep.
    + right. exists 0%nat, p. repeat split; [lia|assumption|]. intros; lia.
    + destruct (IH (S y)) as [[Hr Hall]|(k & q & Hr & Hk & Eq & Hlt)].
      * left. split; [exact Hr|]. intros [|k] q Hk; simpl in Hk.
        -- congruence.
        -- eapply Hall; eassumption.
      * right. exists (S k), q. repeat split; [lia|assumption|assumption|].
        intros [|j] q' Hj Hq'; simpl in Hq'; [congruence|].
        eapply Hlt; [|eassumption]. lia.
Qed.

(** ** The second loop *)

Section ScanFacts.
Variable beats : Z -> Process -> Process -> bool.
Variable curTime : Z.
Variable procList : list Process.

Lemma scan_running (runTime : Z) (rest : list Process) (x c : nat) :
  runTime <> 0 -> is_Some (procList !! c) ->
  scan beats curTime runTime procList rest x c = Some c.
Proof.
  intros Hr [pc Hc]. revert x.
  induction rest as [|px rest IH]; intros x; simpl; [reflexivity|].
  rewrite Hc. simpl.
  destruct (Z.eqb_spec runTime 0); [contradiction|].
  rewrite andb_false_r. apply IH.
Qed.

Lemma scan_eligible (rest : list Process) (x c : nat) :
  drop x procList = rest -> is_Some (procList !! c) ->
  exists r, scan beats curTime 0 procList rest x c = Some r /\
    (r = c \/ exists pr, procList !! r = Some pr /\ eligible curTime pr = true).
Proof.
  revert x c. induction rest as [|px rest IH]; intros x c Hd [pc Hc]; simpl.
  - exists c. split; [reflexivity|left; reflexivity].
  - apply drop_cons_inv in Hd as [Hx Hd].
    rewrite Hc. simpl. rewrite andb_true_r.
    destruct ((startTime px <=? curTime) && beats curTime px pc && negb (isDone px))
      eqn:E.
    + destruct (IH (S x) x Hd) as (r & Hr & Hcase); [eexists; eassumption|].
      exists r. split; [exact Hr|]. right.
      destruct Hcase as [->|Hcase]; [|exact Hcase].
      exists px. split; [exact Hx|]. unfold eligible.
      apply andb_prop in E as [E E3]. apply andb_prop in E as [E1 E2].
      rewrite E1, E3. reflexivity.
    + apply (IH (S x) c Hd). eexists; eassumption.
Qed.

Hypothesis beats_asym : forall a b, a ∈ procList -> b ∈ procList ->
  beats curTime a b = true -> beats curTime b a = false.
Hypothesis beats_negtrans : forall a b c,
  a ∈ procList -> b ∈ procList -> c ∈ procList ->
  beats curTime a b = true ->
  beats curTime a c = true \/ beats curTime c b = true.

Lemma beats_irrefl (a : Process) : a ∈ procList -> beats curTime a a = false.
Proof.
  intros Ha. destruct (beats curTime a a) eqn:E; [|reflexivity].
  rewrite (beats_asym a a Ha Ha E) in E. discriminate.
Qed.

Lemma scan_best (rest : list Process) (x c : nat) :
  drop x procList = rest -> best_upto beats curTime procList x c ->
  exists r, scan beats curTime 0 procList rest x c = Some r /\
    best_upto beats curTime procList (length procList) r.
Proof.
  revert x c. induction rest as [|px rest IH]; intros x c Hd Hinv; simpl.
  - exists c. split; [reflexivity|].
    destruct Hinv as (pc & Hc & Ec & Hb & Hl). exists pc.
    repeat split; try assumption.
    intros j pj Hj Hpj Ej. apply (Hb j pj); try assumption.
    destruct (Nat.lt_ge_cases j x) as [?|Hge]; [assumption|].
    apply lookup_lt_Some in Hpj.
    assert (length (drop x procList) = 0%nat) by (rewrite Hd; reflexivity).
    rewrite length_drop in *. lia.
  - apply drop_cons_inv in Hd as [Hx Hd].
    destruct Hinv as (pc & Hc & Ec & Hb & Hl).
    rewrite Hc. simpl. rewrite andb_true_r.
    assert (Hpx : px ∈ procList) by (eapply list_elem_of_lookup_2; eassumption).
    assert (Hpc : pc ∈ procList) by (eapply list_elem_of_lookup_2; eassumption).
    destruct ((startTime px <=? curTime) && beats curTime px pc && negb (isDone px))
      eqn:E.
    + apply andb_prop in E as [E E3]. apply andb_prop in E as [E1 E2].
      apply (IH (S x) x Hd). exists px. repeat split.
      * exact Hx.
      * unfold eligible. rewrite E1, E3. reflexivity.
      * intros j pj Hj Hpj Ej.
        assert (Hin : pj ∈ procList) by (eapply list_elem_of_lookup_2; eassumption).
        destruct (Nat.eq_dec j x) as [->|Hne].
        { assert (pj = px) by congruence. subst pj. apply beats_irrefl, Hpx. }
        destruct (beats curTime pj px) eqn:Ejx; [exfalso|reflexivity].
        destruct (beats_negtrans pj px pc Hin Hpx Hpc Ejx) as [H1|H1].
        -- rewrite (Hb j pj) in H1; [discriminate|lia|assumption|assumption].
        -- rewrite (beats_asym px pc Hpx Hpc E2) in H1. discriminate.
      * intros j pj Hj Hpj Ej.
        assert (Hin : pj ∈ procList) by (eapply list_elem_of_lookup_2; eassumption).
        destruct (beats_negtrans px pc pj Hpx Hpc Hin E2) as [H1|H1]; [exact H1|].
        rewrite (Hb j pj) in H1; [discriminate|lia|assumption|assumption].
    + apply (IH (S x) c Hd). exists pc. repeat split; try assumption.
      intros j pj Hj Hpj Ej.
      destruct (Nat.eq_dec j x) as [->|Hne].
      * assert (pj = px) by congruence. subst pj.
        unfold eligible in Ej. apply andb_prop in Ej as [Ej1 Ej2].
        rewrite Ej1, Ej2 in E. simpl in E. rewrite andb_true_r in E. exact E.
      * apply (Hb j pj); [lia|assumption|assumption].
Qed.
End ScanFacts.

(** ** One call of the shared skeleton *)

Lemma first_ready_in_range (curTime runTime : Z) (procList : list Process) (c : nat) :
  is_Some (procList !! c) ->
  is_Some (procList !! first_ready curTime runTime procList 0 c).
Proof.
  intros Hc. destruct (Z.eq_dec runTime 0) as [->|Hr].
  - destruct (first_ready_spec curTime procList 0 c) as [[-> _]|(k & p & -> & Hk & _)].
    + exact Hc.
    + exists p. exact Hk.
  - rewrite first_ready_running by assumption. exact Hc.
Qed.

Section SelectFacts.
Variable beats : Z -> Process -> Process -> bool.
Variable bump : Z.
Variable curTime : Z.
Variable procList : list Process.

(** Mid-run: nothing is compared, the stored index comes back. *)
Lemma select_running (st : Statics) (p : Process) :
  procList !! index st = Some p -> isDone p = false -> runTime st <> 0 ->
  select beats bump curTime procList st
  = Some (Z.of_nat (index st), mkStatics (index st) (runTime st + bump)).
Proof.
  intros Hp Hd Hr. unfold select. rewrite Hp. simpl. rewrite Hd.
  rewrite first_ready_running by assumption.
  rewrite scan_running by (try assumption; eexists; eassumption). simpl.
  rewrite (decision_index procList (index st)); [reflexivity|].
  eapply all_done_lookup; eassumption.
Qed.

(** The call is defined as soon as the stored index is inside the roster,
    and the index it stores is inside the roster again. *)
Lemma select_total (st : Statics) (p : Process) :
  procList !! index st = Some p ->
  exists r, is_Some (procList !! r) /\
    select beats bump curTime procList st
    = Some (decision procList r,
            mkStatics r ((if isDone p then 0 else runTime st) + bump)).
Proof.
  intros Hp. unfold select. rewrite Hp. simpl.
  set (rt := if isDone p then 0 else runTime st).
  assert (Hc : is_Some (procList !! first_ready curTime rt procList 0 (index st))).
  { apply first_ready_in_range. eexists; eassumption. }
  destruct (Z.eq_dec rt 0) as [E|E].
  - rewrite E in *.
    destruct (scan_eligible beats curTime procList procList 0 _ eq_refl Hc)
      as (r & Hr & Hcase).
    rewrite Hr. simpl. exists r. split; [|reflexivity].
    destruct Hcase as [->|(pr & Hpr & _)]; [exact Hc|eexists; eassumption].
  - rewrite scan_running by assumption. simpl.
    eexists. split; [exact Hc|reflexivity].
Qed.

(** At a decision point with an eligible process in the roster, the call
    returns an eligible process. *)
Lemma select_eligible (st : Statics) (p : Process) :
  procList !! index st = Some p ->
  isDone p = true \/ runTime st = 0 ->
  (exists j pj, procList !! j = Some pj /\ eligible curTime pj = true) ->
  exists r pr,
    select beats bump curTime procList st = Some (Z.of_nat r, mkStatics r bump)
    /\ procList !! r = Some pr /\ eligible curTime pr = true.
Proof.
  intros Hp Hdp (j & pj & Hj & Ej). unfold select. rewrite Hp. simpl.
  assert (Hrt : (if isDone p then 0 else runTime st) = 0).
  { destruct Hdp as [->| ->]; [reflexivity|destruct (isDone p); reflexivity]. }
  rewrite Hrt.
  destruct (first_ready_spec curTime procList 0 (index st))
    as [[_ Hnone]|(k & pk & Hk & Hpk & Ek & _)].
  { rewrite (Hnone j pj Hj) in Ej. discriminate. }
  simpl in Hk. rewrite Hk.
  destruct (scan_eligible beats curTime procList procList 0 k eq_refl)
    as (r & Hr & Hcase); [eexists; eassumption|].
  rewrite Hr. simpl.
  assert (Hel : exists pr, procList !! r = Some pr /\ eligible curTime pr = true).
  { destruct Hcase as [->|Hcase]; [exists pk; split; assumption|exact Hcase]. }
  destruct Hel as (pr & Hpr & Er). exists r, pr.
  split; [|split; assumption].
  rewrite (decision_index procList r); [reflexivity|].
  eapply all_done_lookup; [eassumption|].
  unfold eligible in Er. destruct (isDone pr); [discriminate|reflexivity].
Qed.

Hypothesis beats_asym : forall a b, a ∈ procList -> b ∈ procList ->
  beats curTime a b = true -> beats curTime b a = false.
Hypothesis beats_negtrans : forall a b c,
  a ∈ procList -> b ∈ procList -> c ∈ procList ->
  beats curTime a b = true ->
  beats curTime a c = true \/ beats curTime c b = true.

(** With a comparison that is a strict weak order, the eligible process
    returned is the best one, the first of the best among equals. *)
Lemma select_best (st : Statics) (p : Process) :
  procList !! index st = Some p ->
  isDone p = true \/ runTime st = 0 ->
  (exists j pj, procList !! j = Some pj /\ eligible curTime pj = true) ->
  exists r,
    select beats bump curTime procList st = Some (Z.of_nat r, mkStatics r bump)
    /\ best_upto beats curTime procList (length procList) r.
Proof.
  intros Hp Hdp (j & pj & Hj & Ej). unfold select. rewrite Hp. simpl.
  assert (Hrt : (if isDone p then 0 else runTime st) = 0).
  { destruct Hdp as [->| ->]; [reflexivity|destruct (isDone p); reflexivity]. }
  rewrite Hrt.
  destruct (first_ready_spec curTime procList 0 (index st))
    as [[_ Hnone]|(k & pk & Hk & Hpk & Ek & Hfirst)].
  { rewrite (Hnone j pj Hj) in Ej. discriminate. }
  simpl in Hk. rewrite Hk.
  destruct (scan_best beats curTime procList beats_asym beats_negtrans
              procList 0 k eq_refl) as (r & Hr & Hbest).
  { exists pk. repeat split; try assumption.
    - intros; lia.
    - intros j' pj' Hlt Hj' Ej'. rewrite (Hfirst j' pj' Hlt Hj') in Ej'.
      discriminate. }
  rewrite Hr. simpl. exists r. split; [|exact Hbest].
  destruct Hbest as (pr & Hpr & Er & _).
  rewrite (decision_index procList r); [reflexivity|].
  eapply all_done_lookup; [eassumption|].
  unfold eligible in Er. destruct (isDone pr); [discriminate|reflexivity].
Qed.
End SelectFacts.

(** ** The three functions are instances of the skeleton *)

Lemma spn_scan_skeleton (curTime runTime : Z) (procList rest : list Process)
    (x c : nat) :
  drop x procList = rest -> is_Some (procList !! c) ->
  spn_scan curTime runTime procList rest x c
  = scan spn_beats curTime runTime procList rest x c.
Proof.
  revert x c. induction rest as [|px rest IH]; intros x c Hd [pc Hc]; simpl;
    [reflexivity|].
  apply drop_cons_inv in Hd as [Hx Hd].
  rewrite Hc. simpl. unfold spn_beats at 1.
  destruct (startTime px <=? curTime); simpl.
  - apply IH; [exact Hd|].
    destruct (_ && _); eexists; eassumption.
  - apply IH; [exact Hd|eexists; eassumption].
Qed.

Lemma srt_scan_skeleton (curTime runTime : Z) (procList rest : list Process)
    (x c : nat) :
  srt_scan curTime runTime procList rest x c
  = scan srt_beats curTime runTime procList rest x c.
Proof.
  revert x c. induction rest as [|px rest IH]; intros x c; simpl; [reflexivity|].
  destruct (procList !! c) as [pc|]; simpl; [|reflexivity]. apply IH.
Qed.

Lemma hrrn_scan_skeleton (curTime runTime : Z) (procList rest : list Process)
    (x c : nat) :
  hrrn_scan curTime runTime procList rest x c
  = scan hrrn_beats curTime runTime procList rest x c.
Proof.
  revert x c. induction rest as [|px rest IH]; intros x c; simpl; [reflexivity|].
  destruct (procList !! c) as [pc|]; simpl; [|reflexivity]. apply IH.
Qed.

Lemma SPN_skeleton (curTime : Z) (procList : list Process) (st : Statics) :
  ShortestProcessNext curTime procList st = select spn_beats 1 curTime procList st.
Proof.
  unfold ShortestProcessNext, select.
  destruct (procList !! index st) as [p|] eqn:Hp; simpl; [|reflexivity].
  rewrite spn_scan_skeleton; [reflexivity|reflexivity|].
  apply first_ready_in_range. eexists; eassumption.
Qed.

Lemma SRT_skeleton (curTime : Z) (procList : list Process) (q : Z) (st : Statics) :
  ShortestRemainingTime curTime procList q st
  = select srt_beats 0 curTime procList st.
Proof.
  unfold ShortestRemainingTime, select.
  destruct (procList !! index st) as [p|]; simpl; [|reflexivity].
  rewrite srt_scan_skeleton, Z.add_0_r. reflexivity.
Qed.

Lemma HRRN_skeleton (curTime : Z) (procList : list Process) (st : Statics) :
  HighestResponseRatioNext curTime procList st
  = select hrrn_beats 1 curTime procList st.
Proof.
  unfold HighestResponseRatioNext, select.
  destruct (procList !! index st) as [p|]; simpl; [|reflexivity].
  rewrite hrrn_scan_skeleton. reflexivity.
Qed.

(** ** Further facts about one call of the skeleton *)

Section SelectMore.
Variable beats : Z -> Process -> Process -> bool.
Variable bump : Z.

(** With no eligible process in the roster the stored index stays. *)
Lemma select_no_eligible (curTime : Z) (procList : list Process) (st : Statics)
    (p : Process) :
  procList !! index st = Some p ->
  (forall k q, procList !! k = Some q -> eligible curTime q = false) ->
  select beats bump curTime procList st
  = Some (decision procList (index st),
          mkStatics (index st) ((if isDone p then 0 else runTime st) + bump)).
Proof.
  intros Hp Hnone. unfold select. rewrite Hp. simpl.
  set (rt := if isDone p then 0 else runTime st).
  destruct (Z.eq_dec rt 0) as [E|E].
  - rewrite E.
    destruct (first_ready_spec curTime procList 0 (index st))
      as [[Hr _]|(k & pk & _ & Hpk & Ek & _)].
    2:{ rewrite (Hnone k pk Hpk) in Ek. discriminate. }
    simpl in Hr. rewrite Hr.
    destruct (scan_eligible beats curTime procList procList 0 (index st) eq_refl)
      as (r & Hscan & Hcase); [eexists; eassumption|].
    rewrite Hscan. simpl.
    destruct Hcase as [->|(pr & Hpr & Er)]; [reflexivity|].
    rewrite (Hnone r pr Hpr) in Er. discriminate.
  - rewrite first_ready_running by assumption.
    rewrite scan_running by (try assumption; eexists; eassumption).
    reflexivity.
Qed.

Lemma select_sentinel (curTime : Z) (procList : list Process) (st : Statics) :
  (index st < length procList)%nat ->
  sentinel_ok procList (select beats bump curTime procList st).
Proof.
  intros Hlt. destruct (lookup_lt_is_Some_2 _ _ Hlt) as [p Hp].
  destruct (select_total beats bump curTime procList st p Hp) as (r & Hr & Heq).
  rewrite Heq. eexists _, _. split; [reflexivity|]. simpl.
  split; [apply lookup_lt_is_Some_1, Hr|].
  destruct (all_done procList) eqn:Ha.
  - rewrite decision_all_done by assumption. split; [tauto|discriminate].
  - rewrite decision_index by assumption. split.
    + split; [lia|discriminate].
    + intros _. reflexivity.
Qed.

Lemma select_eligible_ok (curTime : Z) (procList : list Process) (st : Statics) :
  eligible_ok curTime procList st (select beats bump curTime procList st).
Proof.
  intros p Hp Hdp Hex.
  destruct (select_eligible beats bump curTime procList st p Hp Hdp Hex)
    as (r & pr & Heq & Hpr & Er).
  exists r, pr. eexists. split; [exact Heq|]. split; [reflexivity|].
  split; assumption.
Qed.

Lemma select_held_ok (curTime : Z) (procList : list Process) (st : Statics) :
  bump = 1 -> held_ok procList st (select beats bump curTime procList st).
Proof.
  intros -> p Hp Hd Hr.
  rewrite (select_running beats 1 curTime procList st p Hp Hd Hr).
  eexists. split; [reflexivity|]. split; reflexivity.
Qed.

(** Once the run counter is positive, the selected process comes back from
    every call for which it is not done. *)
Lemma select_holds (calls : list (Z * list Process)) (st : Statics) :
  bump = 1 -> 0 < runTime st ->
  Forall (fun c => not_done_at (index st) c.2) calls ->
  run_calls (select beats bump) calls st
  = Some (replicate (length calls) (Z.of_nat (index st))).
Proof.
  intros -> Hr Hall. revert st Hr Hall.
  induction calls as [|[t l] calls IH]; intros st Hr Hall; simpl; [reflexivity|].
  inversion Hall as [|c cs (p & Hp & Hd) Hrest]; subst. simpl in Hp.
  rewrite (select_running beats 1 t l st p Hp Hd) by lia. simpl.
  rewrite IH; [reflexivity|simpl; lia|exact Hrest].
Qed.

(** A call that answers an index has stored it, with a positive counter
    when the function counts. *)
Lemma select_stores (curTime : Z) (procList : list Process) (st st' : Statics)
    (i : nat) :
  0 <= runTime st ->
  select beats bump curTime procList st = Some (Z.of_nat i, st') ->
  index st' = i /\ bump <= runTime st'.
Proof.
  intros Hr Hsel.
  destruct (procList !! index st) as [p|] eqn:Hp.
  2:{ unfold select in Hsel. rewrite Hp in Hsel. discriminate. }
  destruct (select_total beats bump curTime procList st p Hp) as (r & _ & Heq).
  rewrite Heq in Hsel. injection Hsel as Hd <-. simpl. split.
  - unfold decision in Hd. destruct (Nat.eqb _ _); lia.
  - destruct (isDone p); lia.
Qed.
End SelectMore.

(** ** Round Robin: the first loop *)

Lemma newly_ready_none (curTime : Z) (rest : list Process) (i : nat) (rd : list nat) :
  (forall p, p ∈ rest -> startTime p <> curTime) ->
  newly_ready curTime rest i rd = rd.
Proof.
  revert i. induction rest as [|p rest IH]; intros i Hno; simpl; [reflexivity|].
  destruct (Z.eqb_spec (startTime p) curTime) as [E|E].
  - exfalso. apply (Hno p); [left|exact E].
  - apply IH. intros q Hq. apply Hno. right. exact Hq.
Qed.

(** ** Single precision: the order *)

Section F32Order.
Implicit Types a b c : spec_float.

Lemma ltb_rank a b :
  F32.is_nan a = false -> F32.is_nan b = false ->
  (F32.ltb a b = true <-> F32.lex_lt (F32.rank a) (F32.rank b)).
Proof.
  intros Ha Hb. unfold F32.ltb, SFltb, F32.lex_lt.
  destruct a as [sa|sa| |sa ma ea], b as [sb|sb| |sb mb eb];
    try discriminate; try destruct sa; try destruct sb; simpl;
    try (split; [discriminate|lia]); try (split; [lia|reflexivity]).
  - change (Pos.compare_cont Eq ma mb) with (Pos.compare ma mb).
    destruct (Z.compare_spec ea eb); destruct (Pos.compare_spec ma mb);
      simpl; split; try discriminate; try reflexivity; lia.
  - change (Pos.compare_cont Eq ma mb) with (Pos.compare ma mb).
    destruct (Z.compare_spec ea eb); destruct (Pos.compare_spec ma mb);
      simpl; split; try discriminate; try reflexivity; lia.
Qed.

Lemma leb_rank a b :
  F32.is_nan a = false -> F32.is_nan b = false ->
  (F32.leb a b = true <-> ~ F32.lex_lt (F32.rank b) (F32.rank a)).
Proof.
  intros Ha Hb. unfold F32.leb, SFleb, F32.lex_lt.
  destruct a as [sa|sa| |sa ma ea], b as [sb|sb| |sb mb eb];
    try discriminate; try destruct sa; try destruct sb; simpl;
    try (split; [discriminate|lia]); try (split; [lia|reflexivity]).
  - change (Pos.compare_cont Eq ma mb) with (Pos.compare ma mb).
    destruct (Z.compare_spec ea eb); destruct (Pos.compare_spec ma mb);
      simpl; split; try discriminate; try reflexivity; lia.
  - change (Pos.compare_cont Eq ma mb) with (Pos.compare ma mb).
    destruct (Z.compare_spec ea eb); destruct (Pos.compare_spec ma mb);
      simpl; split; try discriminate; try reflexivity; lia.
Qed.

Lemma ltb_asym a b :
  F32.is_nan a = false -> F32.is_nan b = false ->
  F32.ltb a b = true -> F32.ltb b a = false.
Proof.
  intros Ha Hb H. apply (ltb_rank a b Ha Hb) in H.
  destruct (F32.ltb b a) eqn:E; [|reflexivity].
  apply (ltb_rank b a Hb Ha) in E. unfold F32.lex_lt in *. lia.
Qed.

Lemma ltb_negtrans a b c :
  F32.is_nan a = false -> F32.is_nan b = false -> F32.is_nan c = false ->
  F32.ltb a b = true -> F32.ltb a c = true \/ F32.ltb c b = true.
Proof.
  intros Ha Hb Hc H. apply (ltb_rank a b Ha Hb) in H.
  rewrite (ltb_rank a c Ha Hc), (ltb_rank c b Hc Hb).
  unfold F32.lex_lt in *. lia.
Qed.

Lemma ltb_false_leb a b :
  F32.is_nan a = false -> F32.is_nan b = false ->
  F32.ltb a b = false -> F32.leb b a = true.
Proof.
  intros Ha Hb H. apply (leb_rank b a Hb Ha). intros Hlt.
  apply (ltb_rank a b Ha Hb) in Hlt. congruence.
Qed.
End F32Order.

(** ** Single precision: rounding never makes a NaN of a mantissa *)

Section F32Rounding.

Lemma digits2_pos_succ (p : positive) :
  Zpos (digits2_pos p) <= Zpos (digits2_pos (Pos.succ p))
  <= Zpos (digits2_pos p) + 1.
Proof.
  induction p as [p IH|p IH|]; simpl; rewrite ?Pos2Z.inj_succ; lia.
Qed.

Lemma Zdigits2_succ (m : Z) :
  0 <= m -> Zdigits2 m <= Zdigits2 (m + 1) <= Zdigits2 m + 1.
Proof.
  intros Hm. destruct m as [|p|p]; [simpl; lia| |lia].
  replace (Z.pos p + 1) with (Z.pos (Pos.succ p)) by lia.
  simpl. apply digits2_pos_succ.
Qed.

Lemma Zdigits2_pos (m : Z) : 0 <= m -> 0 < Zdigits2 m -> 0 < m.
Proof. destruct m; simpl; lia. Qed.

Lemma digits2_pos_le (p : positive) (n : Z) :
  0 <= n -> Zpos p < 2 ^ n -> Zpos (digits2_pos p) <= n.
Proof.
  revert n. induction p as [p IH|p IH|]; intros n Hn Hlt; simpl.
  - destruct (Z.eq_dec n 0) as [->|Hne]; [simpl in Hlt; lia|].
    replace n with (Z.succ (n - 1)) in Hlt by lia.
    rewrite Z.pow_succ_r in Hlt by lia.
    specialize (IH (n - 1)). rewrite Pos2Z.inj_succ. lia.
  - destruct (Z.eq_dec n 0) as [->|Hne]; [simpl in Hlt; lia|].
    replace n with (Z.succ (n - 1)) in Hlt by lia.
    rewrite Z.pow_succ_r in Hlt by lia.
    specialize (IH (n - 1)). rewrite Pos2Z.inj_succ. lia.
  - destruct (Z.eq_dec n 0) as [->|Hne]; [simpl in Hlt; lia|lia].
Qed.

Lemma digits2_pos_iter_xO (p k : positive) :
  Zpos (digits2_pos (Pos.iter xO p k)) = Zpos (digits2_pos p) + Zpos k.
Proof.
  induction k as [|k IH] using Pos.peano_ind.
  - simpl. rewrite Pos2Z.inj_succ. lia.
  - rewrite Pos.iter_succ. simpl. rewrite !Pos2Z.inj_succ. lia.
Qed.

Lemma shr_1_digits (mrs : shr_record) :
  0 <= shr_m mrs ->
  0 <= shr_m (shr_1 mrs)
  /\ Zdigits2 (shr_m (shr_1 mrs)) = Z.max 0 (Zdigits2 (shr_m mrs) - 1).
Proof.
  destruct mrs as [m r s]. simpl. intros Hm.
  destruct m as [|[p|p|]|p]; simpl; rewrite ?Pos2Z.inj_succ; lia.
Qed.

Lemma iter_shr_1_digits (p : positive) (mrs : shr_record) :
  0 <= shr_m mrs ->
  0 <= shr_m (SpecFloat.iter_pos shr_1 p mrs)
  /\ Zdigits2 (shr_m (SpecFloat.iter_pos shr_1 p mrs))
     = Z.max 0 (Zdigits2 (shr_m mrs) - Zpos p).
Proof.
  revert mrs. induction p as [p IH|p IH|]; intros mrs Hm; simpl.
  - destruct (shr_1_digits mrs Hm) as [H1 D1].
    destruct (IH _ H1) as [H2 D2]. destruct (IH _ H2) as [H3 D3].
    split; [exact H3|]. rewrite D3, D2, D1. lia.
  - destruct (IH _ Hm) as [H2 D2]. destruct (IH _ H2) as [H3 D3].
    split; [exact H3|]. rewrite D3, D2. lia.
  - apply shr_1_digits, Hm.
Qed.

Lemma shr_digits (mrs : shr_record) (e n : Z) :
  0 <= shr_m mrs -> 0 <= n ->
  0 <= shr_m (shr mrs e n).1
  /\ Zdigits2 (shr_m (shr mrs e n).1) = Z.max 0 (Zdigits2 (shr_m mrs) - n)
  /\ (shr mrs e n).2 = e + n.
Proof.
  intros Hm Hn. destruct n as [|p|p]; simpl; [| |lia].
  - split; [exact Hm|]. split; [|lia].
    destruct (shr_m mrs); simpl; lia.
  - destruct (iter_shr_1_digits p mrs Hm) as [H D]. auto.
Qed.

Lemma shr_nonneg (mrs : shr_record) (e n : Z) :
  0 <= shr_m mrs -> 0 <= shr_m (shr mrs e n).1.
Proof.
  intros Hm. destruct n as [|p|p]; simpl; try exact Hm.
  apply iter_shr_1_digits, Hm.
Qed.

Lemma shr_m_of_loc (m : Z) (l : location) : shr_m (shr_record_of_loc m l) = m.
Proof. destruct l as [|[]]; reflexivity. Qed.

Lemma round_nearest_even_range (m : Z) (l : location) :
  m <= round_nearest_even m l <= m + 1.
Proof. destruct l as [|[]]; simpl; try lia. destruct (Z.even m); lia. Qed.

Lemma fexp32 (e : Z) : -125 <= e -> fexp F32.prec F32.emax e = e - 24.
Proof. unfold fexp, emin, F32.prec, F32.emax. lia. Qed.

(** Whatever the mantissa, as long as it is not negative, the rounded
    result is a zero, a finite number or an infinity. *)
Lemma binary_round_aux_not_nan (s : bool) (mx ex : Z) (lx : location) :
  0 <= mx -> F32.is_nan (binary_round_aux F32.prec F32.emax s mx ex lx) = false.
Proof.
  intros Hm. unfold binary_round_aux, shr_fexp.
  set (n1 := fexp _ _ _ - ex).
  pose proof (shr_nonneg (shr_record_of_loc mx lx) ex n1) as H1.
  rewrite shr_m_of_loc in H1. specialize (H1 Hm).
  destruct (shr (shr_record_of_loc mx lx) ex n1) as [mrs1 e1]. simpl in H1.
  set (m2 := round_nearest_even _ _).
  assert (H2 : 0 <= m2).
  { pose proof (round_nearest_even_range (shr_m mrs1) (loc_of_shr_record mrs1)).
    unfold m2. lia. }
  set (n2 := fexp _ _ _ - e1).
  pose proof (shr_nonneg (shr_record_of_loc m2 loc_Exact) e1 n2) as H3.
  rewrite shr_m_of_loc in H3. specialize (H3 H2).
  destruct (shr (shr_record_of_loc m2 loc_Exact) e1 n2) as [mrs2 e2].
  simpl in H3. destruct (shr_m mrs2); [reflexivity| |lia].
  destruct (_ <=? _); reflexivity.
Qed.

(** A mantissa of at least 24 digits whose value is in range rounds to a
    finite number, not to zero and not to an infinity. *)
Lemma binary_round_aux_finite (s : bool) (mx ex : Z) (lx : location) :
  0 <= mx -> 24 <= Zdigits2 mx -> -125 <= Zdigits2 mx + ex <= 127 ->
  exists m e, binary_round_aux F32.prec F32.emax s mx ex lx = S754_finite s m e.
Proof.
  intros Hm Hd Hr. unfold binary_round_aux, shr_fexp.
  rewrite fexp32 by lia.
  pose proof (shr_digits (shr_record_of_loc mx lx) ex (Zdigits2 mx + ex - 24 - ex))
    as H1.
  rewrite shr_m_of_loc in H1. destruct H1 as (H1 & D1 & E1); [lia|lia|].
  destruct (shr (shr_record_of_loc mx lx) ex _) as [mrs1 e1].
  simpl in H1, D1, E1.
  set (m2 := round_nearest_even _ _).
  pose proof (round_nearest_even_range (shr_m mrs1) (loc_of_shr_record mrs1)) as R.
  fold m2 in R.
  pose proof (Zdigits2_succ (shr_m mrs1) H1) as S1.
  assert (D2 : 24 <= Zdigits2 m2 <= 25).
  { destruct (Z.eq_dec m2 (shr_m mrs1)) as [->|Hne]; [lia|].
    replace m2 with (shr_m mrs1 + 1) by lia. lia. }
  rewrite fexp32 by lia.
  pose proof (shr_digits (shr_record_of_loc m2 loc_Exact) e1
                (Zdigits2 m2 + e1 - 24 - e1)) as H3.
  rewrite shr_m_of_loc in H3. destruct H3 as (H3 & D3 & E3); [lia|lia|].
  destruct (shr (shr_record_of_loc m2 loc_Exact) e1 _) as [mrs2 e2].
  simpl in H3, D3, E3.
  pose proof (Zdigits2_pos (shr_m mrs2) H3) as Hpos.
  destruct (shr_m mrs2) as [|m|m]; [lia| |lia].
  destruct (Z.leb_spec e2 (F32.emax - F32.prec)) as [_|Hbad].
  - eexists _, _. reflexivity.
  - unfold F32.emax, F32.prec in Hbad. lia.
Qed.

Lemma shl_align_digits (m : positive) (e e' : Z) :
  let r := shl_align m e e' in
  (e' < e /\ Zpos (digits2_pos r.1) = Zpos (digits2_pos m) + (e - e') /\ r.2 = e')
  \/ (e <= e' /\ r = (m, e)).
Proof.
  unfold shl_align. destruct (e' - e) as [|d|d] eqn:E; simpl.
  - right. split; [lia|reflexivity].
  - right. split; [lia|reflexivity].
  - left. rewrite digits2_pos_iter_xO. lia.
Qed.

(** An [int] that is not 0 converts to a finite float of its sign. *)
Lemma of_int_finite (z : Z) :
  z <> 0 -> - 2 ^ 31 <= z < 2 ^ 31 ->
  exists m e, F32.of_int z = S754_finite (z <? 0) m e.
Proof.
  intros Hz Hr. unfold F32.of_int, binary_normalize.
  assert (Hround : forall s p, Zpos p <= 2 ^ 31 ->
    exists m e, binary_round F32.prec F32.emax s p 0 = S754_finite s m e).
  { intros s p Hp. unfold binary_round.
    assert (Hd : Zpos (digits2_pos p) <= 32).
    { apply digits2_pos_le; [lia|]. change (2 ^ 32) with (2 * 2 ^ 31). lia. }
    rewrite fexp32 by lia.
    destruct (shl_align_digits p 0 (Z.pos (digits2_pos p) + 0 - 24))
      as [(Hlt & Hdig & He)|(Hge & Heq)].
    - destruct (shl_align p 0 _) as [mz ez]. simpl in Hdig, He. subst ez.
      apply binary_round_aux_finite; simpl; lia.
    - rewrite Heq. apply binary_round_aux_finite; simpl; lia. }
  destruct z as [|p|p]; [contradiction| |].
  - apply Hround. lia.
  - apply Hround. lia.
Qed.

Lemma of_int_zero : F32.of_int 0 = S754_zero false.
Proof. reflexivity. Qed.

Lemma add_not_nan (a b : spec_float) :
  (exists s, a = S754_zero s) \/ (exists s m e, a = S754_finite s m e) ->
  (exists s, b = S754_zero s) \/ (exists s m e, b = S754_finite s m e) ->
  F32.is_nan (F32.add a b) = false.
Proof.
  intros [[sa ->]|(sa & ma & ea & ->)] [[sb ->]|(sb & mb & eb & ->)];
    unfold F32.add, SFadd.
  - destruct sa, sb; reflexivity.
  - reflexivity.
  - reflexivity.
  - unfold binary_normalize.
    destruct (_ + _) as [|p|p]; [reflexivity| |];
      unfold binary_round; destruct (shl_align _ _ _) as [mz ez];
      apply binary_round_aux_not_nan; lia.
Qed.

Lemma div_not_nan (a : spec_float) (s : bool) (m : positive) (e : Z) :
  F32.is_nan a = false -> F32.is_nan (F32.div a (S754_finite s m e)) = false.
Proof.
  intros Ha. unfold F32.div, SFdiv.
  destruct a as [sa|sa| |sa ma ea]; try reflexivity; try discriminate.
  unfold SFdiv_core_binary.
  set (m' := match _ with Z0 => _ | Zpos _ => _ | Zneg _ => _ end).
  assert (Hm' : 0 <= m').
  { unfold m'. destruct (_ - _ - _) as [|p|p]; try lia.
    apply Z.shiftl_nonneg. lia. }
  pose proof (Z.div_pos m' (Z.pos m) Hm' ltac:(lia)) as Hq.
  unfold Z.div in Hq. destruct (Z.div_eucl m' (Z.pos m)) as [q r].
  simpl in Hq. apply binary_round_aux_not_nan. exact Hq.
Qed.
End F32Rounding.

(** The response ratio of a valid entry is a number. *)
Lemma ratio_not_nan (curTime : Z) (p : Process) :
  ratio_defined curTime p -> F32.is_nan (ratio curTime p) = false.
Proof.
  intros [Hs Hw]. unfold ratio, timeSpentWaiting.
  destruct (of_int_finite (totalTimeNeeded p)) as (m & e & ->); [lia|lia|].
  apply div_not_nan, add_not_nan.
  - destruct (Z.eq_dec (curTime - startTime p - timeScheduled p) 0) as [->|Hne].
    + left. eexists. apply of_int_zero.
    + right. destruct (of_int_finite _ Hne Hw) as (m' & e' & ->). eauto.
  - right. eauto.
Qed.

(** ** Driven runs of the three selection policies *)

Lemma drive_ext {St : Type} (f g : Z -> list Process -> St -> option (Z * St))
    (n : nat) (t : Z) (l : list Process) (st : St) :
  (forall t l s, f t l s = g t l s) -> drive f n t l st = drive g n t l st.
Proof.
  intros Hfg. revert t l st. induction n as [|n IH]; intros t l st; simpl;
    [reflexivity|].
  rewrite Hfg. destruct (g t l st) as [[d st']|]; simpl; [|reflexivity].
  rewrite IH. reflexivity.
Qed.

Lemma apply_decision_index (r : nat) (l : list Process) :
  apply_decision (Z.of_nat r) l = alter run_one_tick r l.
Proof.
  unfold apply_decision. destruct (Z.leb_spec 0 (Z.of_nat r)); [|lia].
  rewrite Nat2Z.id. reflexivity.
Qed.

Lemma consistent_run_one_tick (p : Process) :
  consistent p -> consistent (run_one_tick p).
Proof.
  unfold consistent, run_one_tick. simpl. intros Hp.
  destruct (Z.eqb_spec (timeScheduled p + 1) (totalTimeNeeded p)); [discriminate|].
  intros Hd. specialize (Hp Hd). lia.
Qed.

Lemma work_left_run_one_tick (p : Process) :
  consistent p ->
  work_left (run_one_tick p) = if isDone p then 0 else work_left p - 1.
Proof.
  unfold consistent, work_left, run_one_tick. simpl. intros Hp.
  destruct (Z.eqb_spec (timeScheduled p + 1) (totalTimeNeeded p));
    destruct (isDone p); try reflexivity; lia.
Qed.

Lemma total_work_left_alter (f : Process -> Process) (l : list Process)
    (r : nat) (p : Process) :
  l !! r = Some p ->
  total_work_left (alter f r l) = total_work_left l - work_left p + work_left (f p).
Proof.
  revert r. induction l as [|q l IH]; intros [|r] Hr; try discriminate.
  - injection Hr as ->. simpl. lia.
  - change (alter f (S r) (q :: l)) with (q :: alter f r l).
    simpl in Hr. cbn [total_work_left foldr].
    fold (total_work_left (alter f r l)). fold (total_work_left l).
    rewrite (IH r Hr). lia.
Qed.

Lemma total_work_left_nonneg (l : list Process) :
  Forall consistent l -> 0 <= total_work_left l.
Proof.
  induction 1 as [|p l Hp Hl IH]; simpl; [lia|].
  unfold work_left, consistent in *. destruct (isDone p); [lia|].
  specialize (Hp eq_refl). lia.
Qed.

Lemma total_work_left_done (l : list Process) :
  Forall consistent l -> total_work_left l <= 0 -> all_done l = true.
Proof.
  induction 1 as [|p l Hp Hl IH]; simpl; [reflexivity|]. intros Hz.
  pose proof (total_work_left_nonneg l Hl) as Hnn.
  unfold work_left, consistent in *. destruct (isDone p); simpl.
  - apply IH. lia.
  - specialize (Hp eq_refl). lia.
Qed.

Lemma last_arrival_alter (l : list Process) (r : nat) :
  last_arrival (alter run_one_tick r l) = last_arrival l.
Proof.
  revert r. induction l as [|q l IH]; intros [|r]; try reflexivity.
  change (alter run_one_tick (S r) (q :: l)) with (q :: alter run_one_tick r l).
  cbn [last_arrival foldr]. fold (last_arrival (alter run_one_tick r l)).
  fold (last_arrival l). rewrite IH. reflexivity.
Qed.

Lemma last_arrival_ge (l : list Process) (q : Process) :
  q ∈ l -> startTime q <= last_arrival l.
Proof.
  induction l as [|p l IH]; intros Hq; [inversion Hq|].
  apply elem_of_cons in Hq as [->|Hq]; simpl; [lia|].
  specialize (IH Hq). lia.
Qed.

Lemma not_all_done_elem (l : list Process) :
  all_done l = false -> exists q, q ∈ l /\ isDone q = false.
Proof.
  induction l as [|p l IH]; simpl; [discriminate|].
  destruct (isDone p) eqn:Hp; simpl.
  - intros H. destruct (IH H) as (q & Hq & Hd). exists q. split; [right|]; assumption.
  - intros _. exists p. split; [left|assumption].
Qed.

Section RunFacts.
Variable beats : Z -> Process -> Process -> bool.
Variable bump : Z.

(** A call answers a done process only when nothing is eligible. *)
Lemma select_done_answer (curTime : Z) (l : list Process) (st st' : Statics)
    (r : nat) (pr : Process) :
  select beats bump curTime l st = Some (Z.of_nat r, st') ->
  l !! r = Some pr -> isDone pr = true ->
  forall q, q ∈ l -> eligible curTime q = false.
Proof.
  intros Hsel Hr Hd q Hq.
  destruct (eligible curTime q) eqn:Eq; [exfalso|reflexivity].
  apply list_elem_of_lookup_1 in Hq as [j Hj].
  destruct (l !! index st) as [p|] eqn:Hp.
  2:{ unfold select in Hsel. rewrite Hp in Hsel. discriminate. }
  destruct (isDone p) eqn:Dp.
  - destruct (select_eligible beats bump curTime l st p Hp)
      as (r' & pr' & Heq & Hr' & Er'); [left; assumption|eauto|].
    rewrite Heq in Hsel. injection Hsel as Hrr _.
    apply Nat2Z.inj in Hrr. subst r'. rewrite Hr in Hr'. injection Hr' as <-.
    unfold eligible in Er'. rewrite Hd in Er'. discriminate.
  - destruct (Z.eq_dec (runTime st) 0) as [H0|H0].
    + destruct (select_eligible beats bump curTime l st p Hp)
        as (r' & pr' & Heq & Hr' & Er'); [right; assumption|eauto|].
      rewrite Heq in Hsel. injection Hsel as Hrr _.
      apply Nat2Z.inj in Hrr. subst r'. rewrite Hr in Hr'. injection Hr' as <-.
      unfold eligible in Er'. rewrite Hd in Er'. discriminate.
    + rewrite (select_running beats bump curTime l st p Hp Dp H0) in Hsel.
      injection Hsel as Hrr _. apply Nat2Z.inj in Hrr. subst r.
      congruence.
Qed.

(** One tick of a run that is not all done brings the bound down. *)
Lemma select_tick_progress (curTime : Z) (l : list Process) (st : Statics) :
  Forall consistent l -> (index st < length l)%nat -> all_done l = false ->
  exists r st',
    select beats bump curTime l st = Some (Z.of_nat r, st')
    /\ index st' = r /\ (r < length l)%nat
    /\ Forall consistent (alter run_one_tick r l)
    /\ run_bound (curTime + 1) (alter run_one_tick r l) <= run_bound curTime l - 1.
Proof.
  intros Hc Hlt Hnd.
  destruct (select_sentinel beats bump curTime l st Hlt)
    as (d & st' & Hsel & Hin & _ & Hd). specialize (Hd Hnd). subst d.
  exists (index st'), st'. split; [exact Hsel|].
  split; [reflexivity|]. split; [exact Hin|].
  destruct (lookup_lt_is_Some_2 _ _ Hin) as [pr Hpr].
  assert (Hcp : consistent pr).
  { rewrite Forall_forall in Hc. apply Hc.
    eapply list_elem_of_lookup_2. eassumption. }
  split.
  { apply Forall_alter; [exact Hc|]. intros x _. apply consistent_run_one_tick. }
  unfold run_bound.
  rewrite (total_work_left_alter run_one_tick l _ pr Hpr), last_arrival_alter.
  rewrite (work_left_run_one_tick pr Hcp).
  destruct (isDone pr) eqn:Dp.
  - pose proof (select_done_answer curTime l st st' _ pr Hsel Hpr Dp) as Hnone.
    destruct (not_all_done_elem l Hnd) as (q & Hq & Dq).
    specialize (Hnone q Hq). unfold eligible in Hnone. rewrite Dq in Hnone.
    simpl in Hnone. apply Z.leb_gt in Hnone.
    pose proof (last_arrival_ge l q Hq). unfold work_left. rewrite Dp. lia.
  - lia.
Qed.

(** A driven run is all done within [run_bound] ticks, and every call on
    the way is defined. *)
Lemma select_run_terminates (n : nat) (curTime : Z) (l : list Process)
    (st : Statics) :
  Forall consistent l -> (index st < length l)%nat ->
  run_bound curTime l <= Z.of_nat n ->
  exists k ds l' st',
    (k <= n)%nat
    /\ drive (select beats bump) k curTime l st = Some (ds, l', st')
    /\ all_done l' = true /\ (index st' < length l')%nat.
Proof.
  revert curTime l st. induction n as [|n IH]; intros t l st Hc Hlt Hb.
  - exists 0%nat, [], l, st. split; [lia|]. split; [reflexivity|].
    split; [|exact Hlt]. apply total_work_left_done; [exact Hc|].
    unfold run_bound in Hb. lia.
  - destruct (all_done l) eqn:Hnd.
    + exists 0%nat, [], l, st. split; [lia|]. split; [reflexivity|].
      split; assumption.
    + destruct (select_tick_progress t l st Hc Hlt Hnd)
        as (r & st1 & Hsel & Hidx & Hin & Hc1 & Hdec).
      destruct (IH (t + 1) (alter run_one_tick r l) st1 Hc1)
        as (k & ds & l' & st' & Hk & Hrun & Hdone & Hin');
        [rewrite length_alter, Hidx; exact Hin|lia|].
      exists (S k), (Z.of_nat r :: ds), l', st'. split; [lia|].
      split; [|split; assumption].
      simpl. rewrite Hsel. simpl. rewrite apply_decision_index, Hrun. reflexivity.
Qed.
End RunFacts.

(** The three selection policies reach "all done" on every roster: driven
    from any tick with each decision applied, the run is all done within
    [run_bound] ticks, and the next call answers -1. *)
Lemma selection_run_terminates (curTime timeQuantum : Z) (l : list Process)
    (st : Statics) (step : Z -> list Process -> Statics -> option (Z * Statics)) :
  step = ShortestProcessNext
  \/ step = (fun t l s => ShortestRemainingTime t l timeQuantum s)
  \/ step = HighestResponseRatioNext ->
  Forall consistent l -> (index st < length l)%nat ->
  exists k ds l' st' st'',
    Z.of_nat k <= run_bound curTime l
    /\ drive step k curTime l st = Some (ds, l', st')
    /\ all_done l' = true
    /\ step (curTime + Z.of_nat k) l' st' = Some (-1, st'').
Proof.
  intros Hstep Hc Hlt.
  assert (Hnn : 0 <= run_bound curTime l).
  { unfold run_bound. pose proof (total_work_left_nonneg l Hc). lia. }
  assert (Hgen : forall beats bump,
    (forall t l s, step t l s = select beats bump t l s) ->
    exists k ds l' st' st'',
      Z.of_nat k <= run_bound curTime l
      /\ drive step k curTime l st = Some (ds, l', st')
      /\ all_done l' = true
      /\ step (curTime + Z.of_nat k) l' st' = Some (-1, st'')).
  { intros beats bump Heq.
    destruct (select_run_terminates beats bump (Z.to_nat (run_bound curTime l))
                curTime l st Hc Hlt) as (k & ds & l' & st' & Hk & Hrun & Hd & Hin);
      [lia|].
    destruct (select_sentinel beats bump (curTime + Z.of_nat k) l' st' Hin)
      as (d & st'' & Hsel & _ & Hm1 & _).
    exists k, ds, l', st', st''. split; [lia|].
    split; [rewrite (drive_ext step (select beats bump)); assumption|].
    split; [exact Hd|].
    rewrite Heq, Hsel. apply Hm1 in Hd. subst d. reflexivity. }
  destruct Hstep as [->|[->| ->]].
  - apply (Hgen spn_beats 1). intros. apply SPN_skeleton.
  - apply (Hgen srt_beats 0). intros. apply SRT_skeleton.
  - apply (Hgen hrrn_beats 1). intros. apply HRRN_skeleton.
Qed.

(** ** Runs without an arrival gap *)

Lemma all_done_no_work (l : list Process) :
  all_done l = true -> total_work_left l = 0.
Proof.
  induction l as [|p l IH]; simpl; [reflexivity|].
  intros H. apply andb_prop in H as [Hp Hl].
  unfold work_left. rewrite Hp, (IH Hl). reflexivity.
Qed.

Lemma run_ticks_index (r : nat) (ds : list Z) :
  run_ticks (Z.of_nat r :: ds) = S (run_ticks ds).
Proof.
  unfold run_ticks. rewrite filter_cons_True by lia. reflexivity.
Qed.

Section NoGap.
Variable beats : Z -> Process -> Process -> bool.
Variable bump : Z.

(** When every process has arrived, a tick of a run that is not all done
    goes to a process that is not done. *)
Lemma select_tick_work (curTime : Z) (l : list Process) (st : Statics) :
  Forall consistent l -> (index st < length l)%nat -> all_done l = false ->
  Forall (fun p => startTime p <= curTime) l ->
  exists r st',
    select beats bump curTime l st = Some (Z.of_nat r, st')
    /\ index st' = r /\ (r < length l)%nat
    /\ Forall consistent (alter run_one_tick r l)
    /\ Forall (fun p => startTime p <= curTime + 1) (alter run_one_tick r l)
    /\ total_work_left (alter run_one_tick r l) = total_work_left l - 1.
Proof.
  intros Hc Hlt Hnd Harr.
  destruct (select_tick_progress beats bump curTime l st Hc Hlt Hnd)
    as (r & st' & Hsel & Hidx & Hin & Hc' & _).
  exists r, st'. split; [exact Hsel|]. split; [exact Hidx|].
  split; [exact Hin|]. split; [exact Hc'|].
  split.
  { apply Forall_alter.
    - eapply Forall_impl; [exact Harr|]. simpl. intros; lia.
    - intros x _ Hx. simpl in *. lia. }
  destruct (lookup_lt_is_Some_2 _ _ Hin) as [pr Hpr].
  assert (Hcp : consistent pr).
  { rewrite Forall_forall in Hc. apply Hc.
    eapply list_elem_of_lookup_2. eassumption. }
  rewrite (total_work_left_alter run_one_tick l r pr Hpr).
  rewrite (work_left_run_one_tick pr Hcp).
  destruct (isDone pr) eqn:Dp; [exfalso|lia].
  pose proof (select_done_answer beats bump curTime l st st' r pr Hsel Hpr Dp)
    as Hnone.
  destruct (not_all_done_elem l Hnd) as (q & Hq & Dq).
  specialize (Hnone q Hq). unfold eligible in Hnone. rewrite Dq in Hnone.
  simpl in Hnone. apply Z.leb_gt in Hnone.
  rewrite Forall_forall in Harr. specialize (Harr q Hq). simpl in Harr. lia.
Qed.

Lemma select_run_conserves (n : nat) (curTime : Z) (l : list Process)
    (st : Statics) :
  Forall consistent l -> (index st < length l)%nat ->
  Forall (fun p => startTime p <= curTime) l ->
  total_work_left l = Z.of_nat n ->
  exists ds l' st',
    drive (select beats bump) n curTime l st = Some (ds, l', st')
    /\ all_done l' = true /\ run_ticks ds = n /\ length ds = n.
Proof.
  revert curTime l st. induction n as [|n IH]; intros t l st Hc Hlt Harr Hw.
  - exists [], l, st. split; [reflexivity|]. split; [|split; reflexivity].
    apply total_work_left_done; [exact Hc|lia].
  - destruct (all_done l) eqn:Hnd.
    { apply all_done_no_work in Hnd. lia. }
    destruct (select_tick_work t l st Hc Hlt Hnd Harr)
      as (r & st1 & Hsel & Hidx & Hin & Hc1 & Harr1 & Hdec).
    destruct (IH (t + 1) (alter run_one_tick r l) st1 Hc1)
      as (ds & l' & st' & Hrun & Hdone & Hticks & Hlen);
      [rewrite length_alter, Hidx; exact Hin|exact Harr1|lia|].
    exists (Z.of_nat r :: ds), l', st'. split.
    + simpl. rewrite Hsel. simpl. rewrite apply_decision_index, Hrun. reflexivity.
    + split; [exact Hdone|]. rewrite run_ticks_index, Hticks. simpl.
      rewrite Hlen. split; reflexivity.
Qed.
End NoGap.

(** Conservation for the three selection policies on a roster without an
    arrival gap: when every process has arrived by the first tick, the run
    takes exactly as many ticks as there is work left, a process is the
    decision at each of them, and the roster is all done afterwards. *)
Lemma selection_conserves_without_gap (curTime timeQuantum : Z)
    (l : list Process) (st : Statics)
    (step : Z -> list Process -> Statics -> option (Z * Statics)) :
  step = ShortestProcessNext
  \/ step = (fun t l s => ShortestRemainingTime t l timeQuantum s)
  \/ step = HighestResponseRatioNext ->
  Forall consistent l -> (index st < length l)%nat ->
  Forall (fun p => startTime p <= curTime) l ->
  exists ds l' st',
    drive step (Z.to_nat (total_work_left l)) curTime l st = Some (ds, l', st')
    /\ all_done l' = true
    /\ Z.of_nat (run_ticks ds) = total_work_left l
    /\ Z.of_nat (length ds) = total_work_left l.
Proof.
  intros Hstep Hc Hlt Harr.
  pose proof (total_work_left_nonneg l Hc) as Hnn.
  assert (Hgen : forall beats bump,
    (forall t l s, step t l s = select beats bump t l s) ->
    exists ds l' st',
      drive step (Z.to_nat (total_work_left l)) curTime l st = Some (ds, l', st')
      /\ all_done l' = true
      /\ Z.of_nat (run_ticks ds) = total_work_left l
      /\ Z.of_nat (length ds) = total_work_left l).
  { intros beats bump Heq.
    destruct (select_run_conserves beats bump (Z.to_nat (total_work_left l))
                curTime l st Hc Hlt Harr)
      as (ds & l' & st' & Hrun & Hd & Hticks & Hlen); [lia|].
    exists ds, l', st'.
    split; [rewrite (drive_ext step (select beats bump)); assumption|].
    split; [exact Hd|]. lia. }
  destruct Hstep as [->|[->| ->]].
  - apply (Hgen spn_beats 1). intros. apply SPN_skeleton.
  - apply (Hgen srt_beats 0). intros. apply SRT_skeleton.
  - apply (Hgen hrrn_beats 1). intros. apply HRRN_skeleton.
Qed.

(** ** Series of calls *)

Lemma run_calls_ext {St : Type} (f g : Z -> list Process -> St -> option (Z * St))
    (calls : list (Z * list Process)) (st : St) :
  (forall t l s, f t l s = g t l s) ->
  run_calls f calls st = run_calls g calls st.
Proof.
  intros Hfg. revert st. induction calls as [|[t l] calls IH]; intros st; simpl;
    [reflexivity|].
  rewrite Hfg. destruct (g t l st) as [[d st']|]; simpl; [|reflexivity].
  rewrite IH. reflexivity.
Qed.

(** * The claims *)

(** ** Non-preemption *)

(** C1, as the code has it: for [ShortestProcessNext] and
    [HighestResponseRatioNext], once a call has answered process [i], every
    later call answers [i] again for as long as process [i] is not done,
    whatever the ticks and the rest of the rosters are.
    [ShortestRemainingTime] never increments its run counter, so the counter
    is 0 again after every call and each call selects anew. *)
Theorem selection_is_held (curTime : Z) (procList : list Process)
    (st st' : Statics) (i : nat) (calls : list (Z * list Process)) :
  0 <= runTime st ->
  Forall (fun c => not_done_at i c.2) calls ->
  (ShortestProcessNext curTime procList st = Some (Z.of_nat i, st') ->
   run_calls ShortestProcessNext calls st'
   = Some (replicate (length calls) (Z.of_nat i)))
  /\ (HighestResponseRatioNext curTime procList st = Some (Z.of_nat i, st') ->
      run_calls HighestResponseRatioNext calls st'
      = Some (replicate (length calls) (Z.of_nat i)))
  /\ (forall q d, runTime st = 0 ->
      ShortestRemainingTime curTime procList q st = Some (d, st') ->
      runTime st' = 0).
Proof.
  intros Hr Hall. split; [|split].
  - rewrite SPN_skeleton. intros Hsel.
    destruct (select_stores _ _ _ _ _ _ _ Hr Hsel) as [<- Hpos].
    rewrite (run_calls_ext _ (select spn_beats 1)) by apply SPN_skeleton.
    apply select_holds; [reflexivity|lia|exact Hall].
  - rewrite HRRN_skeleton. intros Hsel.
    destruct (select_stores _ _ _ _ _ _ _ Hr Hsel) as [<- Hpos].
    rewrite (run_calls_ext _ (select hrrn_beats 1)) by apply HRRN_skeleton.
    apply select_holds; [reflexivity|lia|exact Hall].
  - intros q d H0 Hsel. unfold ShortestRemainingTime in Hsel.
    destruct (procList !! index st) as [p|]; simpl in Hsel; [|discriminate].
    destruct (srt_scan _ _ _ _ _ _); simpl in Hsel; [|discriminate].
    injection Hsel as _ <-. simpl. rewrite H0. destruct (isDone p); reflexivity.
Qed.

Lemma selection_is_held_witness :
  let calls := [(1, [mkProcess 0 5 1 false; P 1 1]);
                (2, [mkProcess 0 5 2 false; P 1 1])] in
  run_calls ShortestProcessNext calls (mkStatics 0 1) = Some [0; 0]
  /\ run_calls HighestResponseRatioNext calls (mkStatics 0 1) = Some [0; 0].
Proof.
  intros calls.
  destruct (selection_is_held 0 [P 0 5; P 1 1] fresh (mkStatics 0 1) 0 calls)
    as (Hspn & Hhrrn & _).
  - simpl. lia.
  - repeat constructor; eexists; (split; [reflexivity|reflexivity]).
  - split; [apply Hspn|apply Hhrrn]; reflexivity.
Defined.

(** C1 as stated fails for [ShortestRemainingTime]: with P0(arrival 0,
    need 5) and P1(arrival 1, need 1), the call at tick 0 answers P0, and the
    call at tick 1 answers P1 although P0 is not done. *)
Lemma SRT_interleaves :
  let l0 := [P 0 5; P 1 1] in
  let l1 := apply_decision 0 l0 in
  exists st1 st2,
    ShortestRemainingTime 0 l0 2 fresh = Some (0, st1)
    /\ not_done_at 0 l1
    /\ ShortestRemainingTime 1 l1 2 st1 = Some (1, st2).
Proof.
  eexists _, _. split; [reflexivity|]. split; [|reflexivity].
  eexists. split; reflexivity.
Qed.

(** ** Round Robin before the first arrival *)

(** C2 on the code: when no process has arrived yet and the ready queue is
    empty, as it is with fresh statics, the queue is still empty after the
    first loop, and the rotation check reads [ready[0]] all the same:
    the call is undefined, for every quantum, and no idle decision comes
    back. *)
Theorem RoundRobin_before_first_arrival (curTime timeQuantum : Z)
    (procList : list Process) (s : RRStatics) :
  (forall p, p ∈ procList -> curTime < startTime p) ->
  ready s = [] ->
  RoundRobin curTime procList timeQuantum s = None.
Proof.
  intros Hno Hs. unfold RoundRobin. rewrite Hs.
  rewrite newly_ready_none.
  - destruct (timeToNextSched s =? 0); reflexivity.
  - intros p Hp E. specialize (Hno p Hp). lia.
Qed.

Lemma RoundRobin_before_first_arrival_witness :
  RoundRobin 0 [P 5 1] 2 (RR_fresh 2) = None.
Proof.
  apply (RoundRobin_before_first_arrival 0 2 [P 5 1] (RR_fresh 2)).
  - intros p Hp. apply list_elem_of_singleton in Hp. subst p. simpl. lia.
  - reflexivity.
Defined.

(** ** The state machine of the three selection policies *)

(** C3, as the code has it: each of the three calls is defined for statics
    whose index lies in the roster; it answers -1 exactly when every process
    is done; at a decision point (selected process done, or run counter 0)
    with an eligible process in the roster it answers an eligible process;
    and [ShortestProcessNext] and [HighestResponseRatioNext] answer the
    selected process again while it is not done and the counter is not 0. *)
Theorem selection_state_machine (curTime : Z) (procList : list Process)
    (timeQuantum : Z) (st : Statics) :
  (index st < length procList)%nat ->
  (let r := ShortestProcessNext curTime procList st in
   sentinel_ok procList r /\ eligible_ok curTime procList st r
   /\ held_ok procList st r)
  /\ (let r := ShortestRemainingTime curTime procList timeQuantum st in
      sentinel_ok procList r /\ eligible_ok curTime procList st r)
  /\ (let r := HighestResponseRatioNext curTime procList st in
      sentinel_ok procList r /\ eligible_ok curTime procList st r
      /\ held_ok procList st r).
Proof.
  intros Hlt. rewrite SPN_skeleton, SRT_skeleton, HRRN_skeleton. simpl.
  repeat split;
    first [ apply select_sentinel, Hlt
          | apply select_eligible_ok
          | apply select_held_ok; reflexivity ].
Qed.

Lemma selection_state_machine_witness :
  let l := [mkProcess 0 1 1 true; P 5 1] in
  let st := mkStatics 0 1 in
  (index st < length l)%nat
  /\ sentinel_ok l (ShortestProcessNext 5 l st)
  /\ eligible_ok 5 l st (ShortestRemainingTime 5 l 2 st)
  /\ held_ok l st (HighestResponseRatioNext 5 l st).
Proof.
  intros l st.
  assert (Hlt : (index st < length l)%nat) by (simpl; lia).
  split; [exact Hlt|].
  destruct (selection_state_machine 5 l 2 st Hlt)
    as ((H1 & _ & _) & (_ & H2) & (_ & _ & H3)).
  split; [exact H1|]. split; [exact H2|exact H3].
Defined.

(** C3 as stated fails in an arrival gap: with P0(arrival 0, need 1) and
    P1(arrival 5, need 1), P0 runs at tick 0 and is done; at tick 1 no
    process is eligible, and [ShortestProcessNext] answers process 0, a done
    process, where the claim has "all done". *)
Lemma SPN_answers_done_process :
  exists l1 st1 st2 p0,
    drive ShortestProcessNext 1 0 [P 0 1; P 5 1] fresh = Some ([0], l1, st1)
    /\ ShortestProcessNext 1 l1 st1 = Some (0, st2)
    /\ l1 !! 0%nat = Some p0 /\ isDone p0 = true
    /\ forallb (fun p => negb (eligible 1 p)) l1 = true.
Proof.
  eexists _, _, _, _. split; [reflexivity|]. split; [reflexivity|].
  split; [reflexivity|]. split; reflexivity.
Qed.

(** ** Shortest Process Next: the selection rule *)

(** C4: at a decision point with an eligible process in the roster,
    [ShortestProcessNext] answers an eligible process whose
    [totalTimeNeeded] is the least among the eligible ones, and strictly less
    than that of every eligible process before it in the roster. *)
Theorem SPN_selects_shortest (curTime : Z) (procList : list Process)
    (st : Statics) (p : Process) :
  procList !! index st = Some p ->
  isDone p = true \/ runTime st = 0 ->
  (exists j pj, procList !! j = Some pj /\ eligible curTime pj = true) ->
  exists r pr,
    ShortestProcessNext curTime procList st = Some (Z.of_nat r, mkStatics r 1)
    /\ procList !! r = Some pr /\ eligible curTime pr = true
    /\ (forall j pj, procList !! j = Some pj -> eligible curTime pj = true ->
          totalTimeNeeded pr <= totalTimeNeeded pj)
    /\ (forall j pj, (j < r)%nat -> procList !! j = Some pj ->
          eligible curTime pj = true ->
          totalTimeNeeded pr < totalTimeNeeded pj).
Proof.
  intros Hp Hdp Hex. rewrite SPN_skeleton.
  destruct (select_best spn_beats 1 curTime procList) with (st := st) (p := p)
    as (r & Hsel & pr & Hpr & Er & Hb & Hl); try assumption.
  - intros a b _ _. unfold spn_beats. rewrite Z.ltb_lt, Z.ltb_ge. lia.
  - intros a b c _ _ _. unfold spn_beats. rewrite !Z.ltb_lt. lia.
  - exists r, pr. repeat split; try assumption.
    + intros j pj Hj Ej.
      assert (Hlen : (j < length procList)%nat) by (eapply lookup_lt_Some; eassumption).
      specialize (Hb j pj Hlen Hj Ej). unfold spn_beats in Hb.
      apply Z.ltb_ge in Hb. exact Hb.
    + intros j pj Hlt Hj Ej. specialize (Hl j pj Hlt Hj Ej).
      unfold spn_beats in Hl. apply Z.ltb_lt in Hl. exact Hl.
Qed.

(** The tie of the spec: P0 and P1 both arrive at 0 and need 4; the first
    call answers P0. *)
Lemma SPN_selects_shortest_witness :
  ShortestProcessNext 0 [P 0 4; P 0 4] fresh = Some (0, mkStatics 0 1)
  /\ exists r pr,
       ShortestProcessNext 0 [P 0 4; P 0 4] fresh = Some (Z.of_nat r, mkStatics r 1)
       /\ [P 0 4; P 0 4] !! r = Some pr /\ eligible 0 pr = true
       /\ (forall j pj, [P 0 4; P 0 4] !! j = Some pj -> eligible 0 pj = true ->
             totalTimeNeeded pr <= totalTimeNeeded pj)
       /\ (forall j pj, (j < r)%nat -> [P 0 4; P 0 4] !! j = Some pj ->
             eligible 0 pj = true -> totalTimeNeeded pr < totalTimeNeeded pj).
Proof.
  split; [reflexivity|].
  apply (SPN_selects_shortest 0 [P 0 4; P 0 4] fresh (P 0 4)).
  - reflexivity.
  - right. reflexivity.
  - exists 0%nat, (P 0 4). split; reflexivity.
Defined.

(** ** Highest Response Ratio Next: the selection rule *)

(** C5, as the code has it: at a decision point with an eligible process in
    the roster, and every entry with a positive [totalTimeNeeded] (all
    values in the range of [int]), [HighestResponseRatioNext] answers an
    eligible process whose response ratio, computed in single precision as
    the code computes it, is the greatest among the eligible ones and
    strictly greater than that of every eligible process before it. *)
Theorem HRRN_selects_highest_ratio (curTime : Z) (procList : list Process)
    (st : Statics) (p : Process) :
  procList !! index st = Some p ->
  isDone p = true \/ runTime st = 0 ->
  (forall q, q ∈ procList -> ratio_defined curTime q) ->
  (exists j pj, procList !! j = Some pj /\ eligible curTime pj = true) ->
  exists r pr,
    HighestResponseRatioNext curTime procList st
    = Some (Z.of_nat r, mkStatics r 1)
    /\ procList !! r = Some pr /\ eligible curTime pr = true
    /\ (forall j pj, procList !! j = Some pj -> eligible curTime pj = true ->
          F32.leb (ratio curTime pj) (ratio curTime pr) = true)
    /\ (forall j pj, (j < r)%nat -> procList !! j = Some pj ->
          eligible curTime pj = true ->
          F32.ltb (ratio curTime pj) (ratio curTime pr) = true).
Proof.
  intros Hp Hdp Hval Hex. rewrite HRRN_skeleton.
  assert (Hnan : forall q, q ∈ procList -> F32.is_nan (ratio curTime q) = false).
  { intros q Hq. apply ratio_not_nan, Hval, Hq. }
  destruct (select_best hrrn_beats 1 curTime procList) with (st := st) (p := p)
    as (r & Hsel & pr & Hpr & Er & Hb & Hl); try assumption.
  - intros a b Ha Hb. unfold hrrn_beats. apply ltb_asym; auto.
  - intros a b c Ha Hb Hc. unfold hrrn_beats. intros H.
    destruct (ltb_negtrans (ratio curTime b) (ratio curTime a) (ratio curTime c))
      as [H1|H1]; auto.
  - exists r, pr. split; [exact Hsel|]. split; [exact Hpr|].
    split; [exact Er|]. split.
    + intros j pj Hj Ej.
      assert (Hlen : (j < length procList)%nat) by (eapply lookup_lt_Some; eassumption).
      specialize (Hb j pj Hlen Hj Ej). unfold hrrn_beats in Hb.
      apply ltb_false_leb; [| |exact Hb]; apply Hnan;
        eapply list_elem_of_lookup_2; eassumption.
    + intros j pj Hlt Hj Ej. exact (Hl j pj Hlt Hj Ej).
Qed.

(** At tick 5 P0 is done; P1(arrival 0, need 5) has ratio 2 and
    P2(arrival 3, need 1) has ratio 3: P2 is answered. *)
Lemma HRRN_selects_highest_ratio_witness :
  let l := [mkProcess 0 5 5 true; P 0 5; P 3 1] in
  HighestResponseRatioNext 5 l (mkStatics 0 5) = Some (2, mkStatics 2 1)
  /\ exists r pr,
       HighestResponseRatioNext 5 l (mkStatics 0 5)
       = Some (Z.of_nat r, mkStatics r 1)
       /\ l !! r = Some pr /\ eligible 5 pr = true
       /\ (forall j pj, l !! j = Some pj -> eligible 5 pj = true ->
             F32.leb (ratio 5 pj) (ratio 5 pr) = true)
       /\ (forall j pj, (j < r)%nat -> l !! j = Some pj ->
             eligible 5 pj = true ->
             F32.ltb (ratio 5 pj) (ratio 5 pr) = true).
Proof.
  intros l. split; [reflexivity|].
  apply (HRRN_selects_highest_ratio 5 l (mkStatics 0 5) (mkProcess 0 5 5 true)).
  - reflexivity.
  - left. reflexivity.
  - intros q Hq. unfold l in Hq. unfold ratio_defined.
    repeat (apply elem_of_cons in Hq as [->|Hq]; [simpl; lia|]).
    inversion Hq.
  - exists 1%nat, (P 0 5). split; reflexivity.
Defined.

(** C5 as stated fails where single precision cannot tell two ratios apart:
    P0 needs 2^25 ticks and P1 needs 2^24, both arrived at 0.  At tick 1 the
    exact ratios are 1 + 2^-25 and 1 + 2^-24; both sums and both quotients
    round to 1.0, nothing is strictly greater, and P0 is answered although
    the ratio of P1 is the higher one. *)
Lemma HRRN_rounding_hides_higher_ratio :
  let p0 := P 0 33554432 in
  let p1 := P 0 16777216 in
  HighestResponseRatioNext 1 [p0; p1] fresh = Some (0, mkStatics 0 1)
  /\ eligible 1 p1 = true
  /\ Qlt (R_spec 1 p0) (R_spec 1 p1)
  /\ ratio 1 p0 = ratio 1 p1.
Proof.
  vm_compute. repeat split; reflexivity.
Qed.

(** ** Round Robin: the scenario of the spec *)

(** C6: quantum 2, P0(arrival 0, need 3), P1(arrival 1, need 2), fresh
    statics, each decision applied before the next tick.  The decisions at
    ticks 0..4 are P0, P0, P1, P1, P0; P1 is done after tick 3 and not
    before, P0 after tick 4 and not before. *)
Theorem RoundRobin_scenario :
  let rr := fun t l s => RoundRobin t l 2 s in
  let l0 := [P 0 3; P 1 2] in
  let after n := drive rr n 0 l0 (RR_fresh 2) in
  decisions (after 5%nat) = Some [0; 0; 1; 1; 0]
  /\ done_flags (after 3%nat) = Some [false; false]
  /\ done_flags (after 4%nat) = Some [false; true]
  /\ done_flags (after 5%nat) = Some [true; true].
Proof. vm_compute. repeat split; reflexivity. Qed.

(** ** Conservation *)

(** C7 on the code: P0(arrival 0, need 1), P1(arrival 2, need 1) under
    [ShortestProcessNext], driven from tick 0.  The roster asks for 2 ticks;
    the run takes the three ticks 0, 1, 2 to be all done, and a process is
    the decision at each of them: at tick 1 it is P0 again, which is done. *)
Theorem SPN_gap_run :
  let l0 := [P 0 1; P 2 1] in
  total_need l0 = 2
  /\ (exists l st, drive ShortestProcessNext 2 0 l0 fresh = Some ([0; 0], l, st)
       /\ all_done l = false)
  /\ (exists l st, drive ShortestProcessNext 3 0 l0 fresh = Some ([0; 0; 1], l, st)
       /\ all_done l = true
       /\ ShortestProcessNext 3 l st = Some (-1, mkStatics 1 1))
  /\ run_ticks [0; 0; 1] = 3%nat.
Proof.
  split; [reflexivity|]. split; [|split; [|reflexivity]].
  - eexists _, _. split; reflexivity.
  - eexists _, _. split; [reflexivity|]. split; reflexivity.
Qed.

(** ** Termination *)

(** C8 on the code: P0(arrival 0, need 1), P1(arrival 3, need 1) under
    [RoundRobin] with quantum 2, driven from tick 0.  Tick 0 runs P0, tick 1
    is idle and leaves the queue empty with [timeToNextSched = 0]; the call
    at tick 2 reads [ready[0]] of the empty queue and is undefined, with P1
    still to run. *)
Theorem RoundRobin_gap_run :
  let rr := fun t l s => RoundRobin t l 2 s in
  let l0 := [P 0 1; P 3 1] in
  (exists l st, drive rr 2 0 l0 (RR_fresh 2) = Some ([0; -1], l, st)
     /\ st = mkRR 0 [] /\ all_done l = false
     /\ RoundRobin 2 l 2 st = None)
  /\ drive rr 3 0 l0 (RR_fresh 2) = None.
Proof.
  split; [|reflexivity].
  eexists _, _. split; [reflexivity|]. repeat split; reflexivity.
Qed.

(** ** The all-done sentinel *)

(** C9: for statics whose index lies in the roster (so the roster is not
    empty), each of the three calls is defined, answers -1 if and only if
    every process is done, and otherwise answers an index inside the
    roster. *)
Theorem all_done_sentinel (curTime : Z) (procList : list Process)
    (timeQuantum : Z) (st : Statics) :
  (index st < length procList)%nat ->
  sentinel_ok procList (ShortestProcessNext curTime procList st)
  /\ sentinel_ok procList (ShortestRemainingTime curTime procList timeQuantum st)
  /\ sentinel_ok procList (HighestResponseRatioNext curTime procList st).
Proof.
  intros Hlt. rewrite SPN_skeleton, SRT_skeleton, HRRN_skeleton.
  repeat split; apply select_sentinel, Hlt.
Qed.

Lemma all_done_sentinel_witness :
  let l := [mkProcess 0 1 1 true; mkProcess 0 2 2 true] in
  (index fresh < length l)%nat
  /\ sentinel_ok l (ShortestProcessNext 2 l fresh)
  /\ sentinel_ok l (ShortestRemainingTime 2 l 2 fresh)
  /\ sentinel_ok l (HighestResponseRatioNext 2 l fresh).
Proof.
  intros l.
  assert (Hlt : (index fresh < length l)%nat) by (simpl; lia).
  split; [exact Hlt|]. exact (all_done_sentinel 2 l 2 fresh Hlt).
Defined.

(** ** The lock-in of index 0 before the first arrival *)

(** C10: a first call of [ShortestProcessNext] or
    [HighestResponseRatioNext] that comes before every arrival, on a roster
    that is not all done, answers index 0 and leaves the run counter at 1;
    every later call answers 0 again for as long as process 0 is not done,
    whatever has arrived in the meantime. *)
Theorem pre_arrival_lock_in (curTime : Z) (procList : list Process)
    (calls : list (Z * list Process)) :
  (forall p, p ∈ procList -> curTime < startTime p) ->
  all_done procList = false ->
  Forall (fun c => not_done_at 0 c.2) calls ->
  (ShortestProcessNext curTime procList fresh = Some (0, mkStatics 0 1)
   /\ run_calls ShortestProcessNext calls (mkStatics 0 1)
      = Some (replicate (length calls) 0))
  /\ (HighestResponseRatioNext curTime procList fresh = Some (0, mkStatics 0 1)
      /\ run_calls HighestResponseRatioNext calls (mkStatics 0 1)
         = Some (replicate (length calls) 0)).
Proof.
  intros Hpre Hnd Hall.
  destruct procList as [|p0 l]; [discriminate|].
  assert (Hnone : forall k q, (p0 :: l) !! k = Some q -> eligible curTime q = false).
  { intros k q Hk. apply list_elem_of_lookup_2 in Hk. specialize (Hpre q Hk).
    unfold eligible. destruct (Z.leb_spec (startTime q) curTime); [lia|].
    apply andb_false_r. }
  assert (Hfirst : forall beats,
    select beats 1 curTime (p0 :: l) fresh = Some (0, mkStatics 0 1)).
  { intros beats.
    rewrite (select_no_eligible beats 1 curTime (p0 :: l) fresh p0 eq_refl Hnone).
    rewrite decision_index by assumption. simpl.
    destruct (isDone p0); reflexivity. }
  assert (Hlater : forall beats,
    run_calls (select beats 1) calls (mkStatics 0 1)
    = Some (replicate (length calls) 0)).
  { intros beats.
    apply (select_holds beats 1 calls (mkStatics 0 1)); [reflexivity|simpl; lia|].
    exact Hall. }
  split; split.
  - rewrite SPN_skeleton. apply Hfirst.
  - rewrite (run_calls_ext _ (select spn_beats 1)) by apply SPN_skeleton.
    apply Hlater.
  - rewrite HRRN_skeleton. apply Hfirst.
  - rewrite (run_calls_ext _ (select hrrn_beats 1)) by apply HRRN_skeleton.
    apply Hlater.
Qed.

(** P0 arrives at 3 and needs 5, P1 arrives at 1 and needs 1; the first call
    comes at tick 0.  At ticks 1 and 2 P1 has arrived and P0 has not. *)
Lemma pre_arrival_lock_in_witness :
  let l0 := [P 3 5; P 1 1] in
  let calls := [(1, [mkProcess 3 5 1 false; P 1 1]);
                (2, [mkProcess 3 5 2 false; P 1 1])] in
  (ShortestProcessNext 0 l0 fresh = Some (0, mkStatics 0 1)
   /\ run_calls ShortestProcessNext calls (mkStatics 0 1) = Some [0; 0])
  /\ (HighestResponseRatioNext 0 l0 fresh = Some (0, mkStatics 0 1)
      /\ run_calls HighestResponseRatioNext calls (mkStatics 0 1) = Some [0; 0]).
Proof.
  intros l0 calls. apply (pre_arrival_lock_in 0 l0 calls).
  - intros p Hp. unfold l0 in Hp.
    apply elem_of_cons in Hp as [->|Hp]; [simpl; lia|].
    apply list_elem_of_singleton in Hp. subst p. simpl. lia.
  - reflexivity.
  - repeat constructor; eexists; (split; [reflexivity|reflexivity]).
Defined.

(** ** Round Robin: one call *)

Lemma newly_ready_arrivals (curTime : Z) (rest : list Process) (i : nat)
    (rd : list nat) :
  newly_ready curTime rest i rd = rd ++ arrivals curTime rest i.
Proof.
  revert i rd. induction rest as [|p rest IH]; intros i rd; simpl.
  - rewrite app_nil_r. reflexivity.
  - rewrite IH. destruct (startTime p =? curTime); [|reflexivity].
    rewrite <- app_assoc. reflexivity.
Qed.

Lemma arrivals_elem (curTime : Z) (rest : list Process) (i j : nat) :
  j ∈ arrivals curTime rest i <->
  (i <= j)%nat /\ exists p, rest !! (j - i)%nat = Some p /\ startTime p = curTime.
Proof.
  revert i. induction rest as [|p rest IH]; intros i; simpl.
  - split; [intros H; inversion H|]. intros (_ & q & Hq & _). discriminate.
  - assert (Hrec : j ∈ arrivals curTime rest (S i) <->
      (i < j)%nat /\ exists q, (p :: rest) !! (j - i)%nat = Some q
                               /\ startTime q = curTime).
    { rewrite IH. split.
      - intros (Hle & q & Hq & Hs). split; [lia|]. exists q. split; [|exact Hs].
        replace (j - i)%nat with (S (j - S i)) by lia. exact Hq.
      - intros (Hlt & q & Hq & Hs). split; [lia|]. exists q. split; [|exact Hs].
        replace (j - i)%nat with (S (j - S i)) in Hq by lia. exact Hq. }
    destruct (Z.eqb_spec (startTime p) curTime) as [E|E].
    + rewrite elem_of_cons, Hrec. split.
      * intros [->|(Hlt & q & Hq & Hs)].
        -- split; [lia|]. exists p. rewrite Nat.sub_diag. split; [reflexivity|exact E].
        -- split; [lia|]. eauto.
      * intros (Hle & q & Hq & Hs).
        destruct (Nat.eq_dec j i) as [->|Hne]; [left; reflexivity|].
        right. split; [lia|]. eauto.
    + rewrite Hrec. split.
      * intros (Hlt & q & Hq & Hs). split; [lia|]. eauto.
      * intros (Hle & q & Hq & Hs). split; [|eauto].
        destruct (Nat.eq_dec j i) as [->|Hne]; [|lia].
        rewrite Nat.sub_diag in Hq. simpl in Hq. congruence.
Qed.

Lemma arrivals_sorted (curTime : Z) (rest : list Process) (i : nat) :
  StronglySorted lt (arrivals curTime rest i).
Proof.
  revert i. induction rest as [|p rest IH]; intros i; simpl; [constructor|].
  destruct (startTime p =? curTime); [|apply IH].
  constructor; [apply IH|]. apply Forall_forall. intros j Hj.
  apply arrivals_elem in Hj. lia.
Qed.

Lemma arrivals_NoDup (curTime : Z) (rest : list Process) (i : nat) :
  NoDup (arrivals curTime rest i).
Proof.
  pose proof (arrivals_sorted curTime rest i) as H.
  induction H as [|j l Hs IH Hall]; constructor; [|exact IH].
  intros Hin. rewrite Forall_forall in Hall. specialize (Hall j Hin). lia.
Qed.

(** The call, read off the queue after the first loop. *)
Lemma RoundRobin_head (curTime : Z) (procList : list Process) (timeQuantum : Z)
    (s : RRStatics) (h : nat) (tl : list nat) (p : Process) :
  ready s ++ arrivals curTime procList 0 = h :: tl ->
  procList !! h = Some p ->
  RoundRobin curTime procList timeQuantum s
  = Some (let rot := (timeToNextSched s =? 0) || isDone p in
          let ready2 := if rot then (if isDone p then tl else tl ++ [h])
                        else h :: tl in
          let tt2 := if rot then timeQuantum else timeToNextSched s in
          match ready2 with
          | idx :: _ => (Z.of_nat idx, mkRR (tt2 - 1) ready2)
          | [] => (-1, mkRR 0 ready2)
          end).
Proof.
  intros Hq Hp. unfold RoundRobin. rewrite newly_ready_arrivals, Hq.
  unfold head_isDone. simpl. rewrite Hp. simpl.
  destruct (timeToNextSched s =? 0); simpl.
  - destruct (isDone p); simpl; reflexivity.
  - destruct (isDone p); simpl; reflexivity.
Qed.

Lemma RoundRobin_undefined (curTime : Z) (procList : list Process)
    (timeQuantum : Z) (s : RRStatics) :
  head (ready s ++ arrivals curTime procList 0) ≫= (procList !!.) = None ->
  RoundRobin curTime procList timeQuantum s = None.
Proof.
  intros H. unfold RoundRobin. rewrite newly_ready_arrivals.
  unfold head_isDone.
  destruct (ready s ++ arrivals curTime procList 0) as [|h tl]; simpl in *.
  - destruct (timeToNextSched s =? 0); reflexivity.
  - rewrite H. simpl. destruct (timeToNextSched s =? 0); reflexivity.
Qed.

(** ** Round Robin: series of calls *)

Lemma run_calls_state_app {St : Type}
    (step : Z -> list Process -> St -> option (Z * St))
    (c1 c2 : list (Z * list Process)) (st : St) :
  run_calls_state step (c1 ++ c2) st
  = '(d1, s1) ← run_calls_state step c1 st;
    '(d2, s2) ← run_calls_state step c2 s1;
    Some (d1 ++ d2, s2).
Proof.
  revert st. induction c1 as [|[t l] c1 IH]; intros st; simpl.
  - destruct (run_calls_state step c2 st) as [[d2 s2]|]; reflexivity.
  - destruct (step t l st) as [[d s']|]; simpl; [|reflexivity].
    rewrite IH. destruct (run_calls_state step c1 s') as [[d1 s1]|]; simpl;
      [|reflexivity].
    destruct (run_calls_state step c2 s1) as [[d2 s2]|]; reflexivity.
Qed.

Lemma arrivals_of_calls_quiet (rd : list nat) (calls : list (Z * list Process)) :
  Forall (quiet_call rd) calls -> arrivals_of_calls calls = [].
Proof.
  induction 1 as [|c calls [Hc _] _ IH]; [reflexivity|].
  unfold arrivals_of_calls in *. simpl. rewrite Hc, IH. reflexivity.
Qed.

Lemma quiet_call_members (rd rd' : list nat) (c : Z * list Process) :
  (forall i, i ∈ rd' -> i ∈ rd) -> quiet_call rd c -> quiet_call rd' c.
Proof. intros Hsub [Ha Hn]. split; [exact Ha|]. intros i Hi. apply Hn, Hsub, Hi. Qed.

Lemma rr_step_eq (timeQuantum curTime : Z) (procList : list Process)
    (s : RRStatics) :
  rr_step timeQuantum curTime procList s
  = RoundRobin curTime procList timeQuantum s.
Proof. reflexivity. Qed.

(** While the countdown does not reach 0, the head of the queue is answered
    again; what arrives queues up behind. *)
Lemma rr_hold (timeQuantum : Z) (calls : list (Z * list Process))
    (tt : Z) (h : nat) (tl : list nat) :
  tt < 0 \/ Z.of_nat (length calls) <= tt ->
  Forall (fun c => not_done_at h c.2) calls ->
  run_calls_state (rr_step timeQuantum) calls (mkRR tt (h :: tl))
  = Some (replicate (length calls) (Z.of_nat h),
          mkRR (tt - Z.of_nat (length calls))
               (h :: tl ++ arrivals_of_calls calls)).
Proof.
  revert tt tl. induction calls as [|[t l] calls IH]; intros tt tl Htt Hall.
  - simpl. rewrite Z.sub_0_r, app_nil_r. reflexivity.
  - inversion Hall as [|c cs (p & Hp & Hd) Hrest]; subst. simpl in Hp.
    cbn [run_calls_state]. rewrite rr_step_eq.
    rewrite (RoundRobin_head t l timeQuantum (mkRR tt (h :: tl)) h
               (tl ++ arrivals t l 0) p eq_refl Hp).
    cbn [timeToNextSched]. rewrite Hd.
    destruct (Z.eqb_spec tt 0) as [E|E]; [simpl in Htt; lia|].
    cbn [orb]. cbn [mbind option_bind].
    rewrite (IH (tt - 1) (tl ++ arrivals t l 0)); [|simpl in Htt; lia|exact Hrest].
    cbn [mbind option_bind length replicate]. f_equal. f_equal.
    f_equal; [lia|]. unfold arrivals_of_calls. simpl.
    rewrite <- app_assoc. reflexivity.
Qed.

(** A time slice: at the expiry of the countdown the head goes to the back
    of the queue, and the process behind it is answered for a full
    quantum. *)
Lemma rr_slice (timeQuantum : Z) (calls : list (Z * list Process))
    (h : nat) (tl : list nat) :
  Z.of_nat (length calls) = timeQuantum -> 1 <= timeQuantum ->
  Forall (quiet_call (h :: tl)) calls ->
  run_calls_state (rr_step timeQuantum) calls (mkRR 0 (h :: tl))
  = Some (replicate (length calls) (Z.of_nat (hd h tl)), mkRR 0 (tl ++ [h])).
Proof.
  intros Hlen Hq Hall.
  destruct calls as [|[t l] calls]; [simpl in Hlen; lia|].
  inversion Hall as [|c cs [Harr Hnd] Hrest]; subst. simpl in Harr, Hnd.
  destruct (Hnd h) as (p & Hp & Hd); [left|].
  cbn [run_calls_state]. rewrite rr_step_eq.
  rewrite (RoundRobin_head t l (Z.of_nat (length ((t, l) :: calls)))
             (mkRR 0 (h :: tl)) h tl p); [|simpl; rewrite Harr, app_nil_r; reflexivity|exact Hp].
  cbn [timeToNextSched]. rewrite Hd. cbn [Z.eqb orb].
  assert (Hhead : exists tl2, tl ++ [h] = hd h tl :: tl2).
  { destruct tl as [|h2 tl]; simpl; eauto. }
  destruct Hhead as [tl2 Htl2]. rewrite Htl2. cbn [mbind option_bind].
  rewrite rr_hold.
  - cbn [mbind option_bind length replicate].
    rewrite (arrivals_of_calls_quiet (h :: tl) calls Hrest), app_nil_r.
    f_equal. f_equal. f_equal. simpl length. lia.
  - right. simpl length. lia.
  - eapply Forall_impl; [exact Hrest|]. intros c [_ Hc]. apply Hc.
    destruct tl as [|h2 tl]; simpl; [left|right; left].
Qed.

(** Slices in a row: after as many slices as [suf] is long, every process
    of [suf] has had its quantum, in queue order. *)
Lemma rr_slices (timeQuantum : Z) (rq : list nat)
    (slices : list (list (Z * list Process))) (suf pre : list nat) (a : nat) :
  1 <= timeQuantum -> length slices = length suf ->
  (forall i, i ∈ a :: suf ++ pre -> i ∈ rq) ->
  Forall (fun sl => Z.of_nat (length sl) = timeQuantum
                    /\ Forall (quiet_call rq) sl) slices ->
  run_calls_state (rr_step timeQuantum) (concat slices)
    (mkRR 0 (a :: suf ++ pre))
  = Some (flat_map (fun i => replicate (Z.to_nat timeQuantum) (Z.of_nat i)) suf,
          mkRR 0 (List.last (a :: suf) a :: pre ++ List.removelast (a :: suf))).
Proof.
  intros Hq. revert a suf pre.
  induction slices as [|sl slices IH]; intros a suf pre Hlen Hsub Hall.
  - destruct suf; [|discriminate]. simpl. rewrite app_nil_r. reflexivity.
  - destruct suf as [|s suf]; [discriminate|].
    inversion Hall as [|x xs [Hl Hquiet] Hrest]; subst.
    cbn [concat]. rewrite run_calls_state_app.
    rewrite (rr_slice (Z.of_nat (length sl)) sl a ((s :: suf) ++ pre));
      [|reflexivity|exact Hq|].
    2:{ eapply Forall_impl; [exact Hquiet|]. intros c.
        apply quiet_call_members. exact Hsub. }
    cbn [mbind option_bind hd app].
    replace (s :: (suf ++ pre) ++ [a]) with (s :: suf ++ (pre ++ [a]))
      by (rewrite <- app_assoc; reflexivity).
    rewrite (IH s suf (pre ++ [a])); [| |  |exact Hrest].
    + cbn [mbind option_bind flat_map]. rewrite Nat2Z.id. f_equal. f_equal.
      f_equal. change (List.last (a :: s :: suf) a) with (List.last (s :: suf) a).
      assert (Hlast : forall d1 d2, List.last (s :: suf) d1 = List.last (s :: suf) d2).
      { clear. revert s. induction suf as [|x suf IH]; intros s d1 d2; [reflexivity|].
        change (List.last (x :: suf) d1 = List.last (x :: suf) d2). apply IH. }
      rewrite (Hlast a s). f_equal.
      change (List.removelast (a :: s :: suf)) with (a :: List.removelast (s :: suf)).
      rewrite <- app_assoc. reflexivity.
    + simpl in Hlen. lia.
    + intros i Hi. apply Hsub. simpl.
      repeat (rewrite elem_of_cons in Hi || rewrite elem_of_app in Hi
              || rewrite elem_of_nil in Hi).
      repeat (rewrite elem_of_cons || rewrite elem_of_app). tauto.
Qed.

(** ** Round Robin: what a driven run keeps true *)

Lemma elem_of_tail {A : Type} (x : A) (l : list A) : x ∈ tail l -> x ∈ l.
Proof. destruct l as [|y l]; simpl; [intros H; exact H|]. intros H. right. exact H. Qed.

Lemma elem_of_arrivals (curTime : Z) (l : list Process) (j : nat) :
  j ∈ arrivals curTime l 0 <-> exists p, l !! j = Some p /\ startTime p = curTime.
Proof.
  rewrite arrivals_elem, Nat.sub_0_r. split; [intros [_ H]; exact H|].
  intros H. split; [lia|exact H].
Qed.

Lemma rr_inv_step (timeQuantum curTime : Z) (l : list Process)
    (s s' : RRStatics) (d : Z) :
  rr_inv curTime l s ->
  RoundRobin curTime l timeQuantum s = Some (d, s') ->
  rr_inv (curTime + 1) (apply_decision d l) s'
  /\ ((d = -1 /\ ready s' = [] /\ apply_decision d l = l)
      \/ (exists r p, d = Z.of_nat r /\ head (ready s') = Some r
            /\ l !! r = Some p /\ isDone p = false /\ startTime p <= curTime
            /\ total_work_left (apply_decision d l) = total_work_left l - 1)).
Proof.
  intros (Hnd & Hin & Htl & Hun & Hc) Hcall.
  set (A := arrivals curTime l 0) in *.
  assert (F2 : forall i, i ∈ ready s ++ A ->
            exists p, l !! i = Some p /\ startTime p <= curTime).
  { intros i Hi. apply elem_of_app in Hi as [Hi|Hi].
    - destruct (Hin i Hi) as (p & Hp & Hs). exists p. split; [exact Hp|lia].
    - apply elem_of_arrivals in Hi as (p & Hp & Hs). exists p. split; [exact Hp|lia]. }
  assert (F1 : NoDup (ready s ++ A)).
  { apply NoDup_app. split; [exact Hnd|]. split; [|apply arrivals_NoDup].
    intros i Hi HA. destruct (Hin i Hi) as (p & Hp & Hs).
    apply elem_of_arrivals in HA as (p' & Hp' & Hs'). rewrite Hp in Hp'.
    injection Hp' as <-. lia. }
  assert (FA : forall i, i ∈ A -> not_done_at i l).
  { intros i Hi. apply elem_of_arrivals in Hi as (p & Hp & Hs).
    exists p. split; [exact Hp|]. apply Hun; [|lia].
    eapply list_elem_of_lookup_2. eassumption. }
  assert (F3 : forall i, i ∈ tail (ready s ++ A) -> not_done_at i l).
  { intros i Hi. destruct (ready s) as [|h0 tl0] eqn:Er; simpl in Hi.
    - apply FA, elem_of_tail, Hi.
    - apply elem_of_app in Hi as [Hi|Hi]; [apply Htl, Hi|apply FA, Hi]. }
  destruct (ready s ++ A) as [|h tl1] eqn:E1.
  { rewrite RoundRobin_undefined in Hcall; [discriminate|].
    fold A. rewrite E1. reflexivity. }
  destruct (F2 h) as (p & Hp & Hsp); [left|].
  rewrite (RoundRobin_head curTime l timeQuantum s h tl1 p E1 Hp) in Hcall.
  cbv zeta in Hcall.
  apply NoDup_cons in F1 as [Hh F1]. simpl in F3.
  remember ((timeToNextSched s =? 0) || isDone p) as rot eqn:Erot.
  remember (if rot then (if isDone p then tl1 else tl1 ++ [h]) else h :: tl1)
    as ready2 eqn:E2.
  assert (G : NoDup ready2 /\ (forall i, i ∈ ready2 -> i ∈ h :: tl1)
              /\ (forall i, i ∈ ready2 -> not_done_at i l)).
  { subst ready2. destruct rot.
    - destruct (isDone p) eqn:Dp.
      + split; [exact F1|]. split; [intros i Hi; right; exact Hi|exact F3].
      + split; [|split].
        * apply NoDup_app. split; [exact F1|]. split; [|apply NoDup_singleton].
          intros i Hi Hi'. apply list_elem_of_singleton in Hi'. subst i. contradiction.
        * intros i Hi. apply elem_of_app in Hi as [Hi|Hi]; [right; exact Hi|].
          apply list_elem_of_singleton in Hi. subst i. left.
        * intros i Hi. apply elem_of_app in Hi as [Hi|Hi]; [apply F3, Hi|].
          apply list_elem_of_singleton in Hi. subst i. exists p. split; assumption.
    - symmetry in Erot. apply orb_false_iff in Erot as [_ Dp].
      split; [apply NoDup_cons; split; assumption|].
      split; [intros i Hi; exact Hi|].
      intros i Hi. apply elem_of_cons in Hi as [->|Hi]; [|apply F3, Hi].
      exists p. split; assumption. }
  clear E2.
  destruct G as (G1 & G2 & G3).
  destruct ready2 as [|r rest2]; injection Hcall as <- <-.
  - split.
    + unfold apply_decision. simpl. unfold rr_inv. simpl.
      split; [constructor|]. split; [intros i Hi; inversion Hi|].
      split; [intros i Hi; inversion Hi|]. split; [|exact Hc].
      intros q Hq Hs. apply Hun; [exact Hq|lia].
    + left. split; [reflexivity|]. split; reflexivity.
  - destruct (G3 r) as (pr & Hpr & Dr); [left|].
    destruct (F2 r) as (pr' & Hpr' & Hsr); [apply G2; left|].
    rewrite Hpr in Hpr'. injection Hpr' as <-.
    rewrite apply_decision_index. split.
    + unfold rr_inv. simpl. split; [exact G1|]. split; [|split; [|split]].
      * intros i Hi. destruct (F2 i) as (pi & Hpi & Hsi); [apply G2, Hi|].
        destruct (Nat.eq_dec r i) as [->|Hne].
        -- rewrite list_lookup_alter_eq, Hpi. simpl. eexists. split; [reflexivity|].
           simpl. lia.
        -- rewrite list_lookup_alter_ne by exact Hne. exists pi. split; [exact Hpi|lia].
      * intros i Hi. apply NoDup_cons in G1 as [Hr _].
        assert (Hne : r <> i) by (intros ->; contradiction).
        destruct (G3 i) as (pi & Hpi & Di); [right; exact Hi|].
        exists pi. rewrite list_lookup_alter_ne by exact Hne. split; assumption.
      * intros q Hq Hs. apply list_elem_of_lookup_1 in Hq as [j Hj].
        destruct (Nat.eq_dec r j) as [->|Hne].
        -- rewrite list_lookup_alter_eq, Hpr in Hj. simpl in Hj.
           injection Hj as <-. simpl in Hs. lia.
        -- rewrite list_lookup_alter_ne in Hj by exact Hne.
           apply Hun; [eapply list_elem_of_lookup_2; eassumption|lia].
      * apply Forall_alter; [exact Hc|]. intros x _. apply consistent_run_one_tick.
    + right. exists r, pr. split; [reflexivity|]. split; [reflexivity|].
      split; [exact Hpr|]. split; [exact Dr|]. split; [exact Hsr|].
      rewrite (total_work_left_alter run_one_tick l r pr Hpr).
      rewrite work_left_run_one_tick, Dr; [lia|].
      rewrite Forall_forall in Hc. apply Hc.
      eapply list_elem_of_lookup_2. eassumption.
Qed.

Lemma rr_inv_run (timeQuantum : Z) (n : nat) (curTime : Z) (l l' : list Process)
    (s s' : RRStatics) (ds : list Z) :
  rr_inv curTime l s ->
  drive (rr_step timeQuantum) n curTime l s = Some (ds, l', s') ->
  rr_inv (curTime + Z.of_nat n) l' s'
  /\ total_work_left l' = total_work_left l - Z.of_nat (run_ticks ds)
  /\ Forall (fun d => d = -1 \/ 0 <= d < Z.of_nat (length l)) ds.
Proof.
  revert curTime l s ds. induction n as [|n IH]; intros t l s ds Hinv Hrun.
  - simpl in Hrun. injection Hrun as <- <- <-. rewrite Z.add_0_r.
    split; [exact Hinv|]. split; [unfold run_ticks; simpl; lia|constructor].
  - cbn [drive] in Hrun. rewrite rr_step_eq in Hrun.
    destruct (RoundRobin t l timeQuantum s) as [[d s1]|] eqn:Hcall;
      [|discriminate].
    cbn [mbind option_bind] in Hrun.
    destruct (drive (rr_step timeQuantum) n (t + 1) (apply_decision d l) s1)
      as [[[ds1 l1] s2]|] eqn:Hrest; [|discriminate].
    cbn [mbind option_bind] in Hrun. injection Hrun as <- <- <-.
    destruct (rr_inv_step timeQuantum t l s s1 d Hinv Hcall) as [Hinv1 Hcase].
    destruct (IH (t + 1) (apply_decision d l) s1 ds1 Hinv1 Hrest)
      as (Hinv2 & Hwork & Hds).
    split; [replace (t + Z.of_nat (S n)) with (t + 1 + Z.of_nat n) by lia; exact Hinv2|].
    destruct Hcase as [(-> & _ & Hl)|(r & p & -> & _ & Hp & _ & _ & Hw)].
    + rewrite Hl in *. split.
      * unfold run_ticks in *. rewrite filter_cons_False by lia. exact Hwork.
      * constructor; [left; reflexivity|exact Hds].
    + split.
      * rewrite run_ticks_index. rewrite Hwork, Hw. lia.
      * constructor.
        -- right. apply lookup_lt_Some in Hp. lia.
        -- rewrite apply_decision_index, length_alter in Hds. exact Hds.
Qed.

(** ** Single precision: integers below 2^24 convert exactly *)

Lemma of_int_not_nan (z : Z) : F32.is_nan (F32.of_int z) = false.
Proof.
  unfold F32.of_int, binary_normalize.
  destruct z as [|m|m]; [reflexivity| |]; unfold binary_round;
    destruct (shl_align _ _ _) as [mz ez]; apply binary_round_aux_not_nan; lia.
Qed.

Lemma digits2_pos_bounds (m : positive) :
  2 ^ (Zpos (digits2_pos m) - 1) <= Zpos m < 2 ^ Zpos (digits2_pos m).
Proof.
  induction m as [m IH|m IH|]; simpl digits2_pos; [| |simpl; lia].
  - rewrite Pos2Z.inj_succ.
    replace (Z.succ (Z.pos (digits2_pos m)) - 1)
      with (Z.succ (Z.pos (digits2_pos m) - 1)) by lia.
    rewrite !Z.pow_succ_r by lia. lia.
  - rewrite Pos2Z.inj_succ.
    replace (Z.succ (Z.pos (digits2_pos m)) - 1)
      with (Z.succ (Z.pos (digits2_pos m) - 1)) by lia.
    rewrite !Z.pow_succ_r by lia. lia.
Qed.

Lemma iter_xO_value (m k : positive) :
  Zpos (Pos.iter xO m k) = Zpos m * 2 ^ Zpos k.
Proof.
  induction k as [|k IH] using Pos.peano_ind.
  - simpl. lia.
  - rewrite Pos.iter_succ, Pos2Z.inj_xO, IH, Pos2Z.inj_succ.
    rewrite Z.pow_succ_r by lia. lia.
Qed.

(** A mantissa of exactly 24 digits is its own rounding. *)
Lemma binary_round_aux_exact (s : bool) (mz : positive) (ez : Z) :
  Zpos (digits2_pos mz) = 24 -> -125 <= 24 + ez -> ez <= 104 ->
  binary_round_aux F32.prec F32.emax s (Zpos mz) ez loc_Exact
  = S754_finite s mz ez.
Proof.
  intros Hd Hlo Hhi. unfold binary_round_aux, shr_fexp. simpl Zdigits2.
  rewrite Hd, fexp32 by lia.
  replace (24 + ez - 24 - ez) with 0 by lia. simpl.
  rewrite Hd, fexp32 by lia.
  replace (24 + ez - 24 - ez) with 0 by lia. simpl.
  destruct (Z.leb_spec ez (F32.emax - F32.prec)) as [_|Hbad]; [reflexivity|].
  unfold F32.emax, F32.prec in Hbad. lia.
Qed.

Lemma binary_round_small (s : bool) (m : positive) :
  Zpos m < 2 ^ 24 ->
  exists mz,
    binary_round F32.prec F32.emax s m 0
    = S754_finite s mz (Zpos (digits2_pos m) - 24)
    /\ Zpos mz = Zpos m * 2 ^ (24 - Zpos (digits2_pos m)).
Proof.
  intros Hm.
  assert (Hd : Zpos (digits2_pos m) <= 24) by (apply digits2_pos_le; lia).
  unfold binary_round. rewrite fexp32 by lia.
  destruct (shl_align_digits m 0 (Z.pos (digits2_pos m) + 0 - 24))
    as [(Hlt & Hdig & He)|(Hge & Heq)].
  - unfold shl_align in *.
    destruct (Z.pos (digits2_pos m) + 0 - 24 - 0) as [|k|k] eqn:Ek; try lia.
    simpl in Hdig, He. exists (Pos.iter xO m k). split.
    + rewrite binary_round_aux_exact by lia. f_equal; lia.
    + rewrite iter_xO_value. f_equal. f_equal. lia.
  - rewrite Heq. exists m. split.
    + rewrite binary_round_aux_exact by lia. f_equal; lia.
    + replace (24 - Z.pos (digits2_pos m)) with 0 by lia. simpl. lia.
Qed.

Lemma rank_of_int (z : Z) :
  - 2 ^ 24 < z < 2 ^ 24 ->
  F32.rank (F32.of_int z)
  = (Z.sgn z, Z.sgn z * (Zdigits2 z - 24), z * 2 ^ (24 - Zdigits2 z)).
Proof.
  intros Hz. unfold F32.of_int, binary_normalize.
  destruct z as [|m|m]; [reflexivity| |].
  - destruct (binary_round_small false m) as (mz & -> & Hmz); [lia|].
    simpl. rewrite Hmz. f_equal. f_equal. destruct (Z.pos (digits2_pos m) - 24); reflexivity.
  - destruct (binary_round_small true m) as (mz & -> & Hmz); [lia|].
    simpl F32.rank. simpl Z.sgn. simpl Zdigits2.
    f_equal.
    rewrite <- Pos2Z.opp_pos, Hmz. lia.
Qed.

Lemma Zdigits2_bounds (z : Z) :
  0 < z -> 2 ^ (Zdigits2 z - 1) <= z < 2 ^ Zdigits2 z.
Proof. destruct z as [|m|m]; try lia. intros _. apply digits2_pos_bounds. Qed.

(** Exponent first, then mantissa: on positive integers below 2^24 this is
    the order of the integers. *)
Lemma scaled_order (a b : Z) :
  0 < a < 2 ^ 24 -> 0 < b < 2 ^ 24 ->
  (Zdigits2 a - 24 < Zdigits2 b - 24
   \/ (Zdigits2 a - 24 = Zdigits2 b - 24
       /\ a * 2 ^ (24 - Zdigits2 a) < b * 2 ^ (24 - Zdigits2 b)))
  <-> a < b.
Proof.
  intros Ha Hb.
  pose proof (Zdigits2_bounds a ltac:(lia)) as Ba.
  pose proof (Zdigits2_bounds b ltac:(lia)) as Bb.
  assert (Da : 0 < Zdigits2 a) by (destruct a; simpl; lia).
  assert (Db : 0 < Zdigits2 b) by (destruct b; simpl; lia).
  destruct (Z.lt_trichotomy (Zdigits2 a) (Zdigits2 b)) as [Hlt|[Heq|Hgt]].
  - pose proof (Z.pow_le_mono_r 2 (Zdigits2 a) (Zdigits2 b - 1)
                  ltac:(lia) ltac:(lia)). split; [lia|]. intros _. left. lia.
  - rewrite Heq.
    assert (Hp : 0 < 2 ^ (24 - Zdigits2 b)).
    { apply Z.pow_pos_nonneg; [lia|].
      assert (Zdigits2 b <= 24); [|lia].
      destruct b as [|m|m]; try lia. apply digits2_pos_le; lia. }
    split.
    + intros [H|[_ H]]; [lia|]. apply Z.mul_lt_mono_pos_r in H; assumption.
    + intros H. right. split; [reflexivity|].
      apply Z.mul_lt_mono_pos_r; assumption.
  - pose proof (Z.pow_le_mono_r 2 (Zdigits2 b) (Zdigits2 a - 1)
                  ltac:(lia) ltac:(lia)). split; [|lia].
    intros [H'|[H' _]]; lia.
Qed.

Lemma Zdigits2_opp (z : Z) : Zdigits2 (- z) = Zdigits2 z.
Proof. destruct z; reflexivity. Qed.

(** On integers below 2^24 in magnitude the comparison of the converted
    values is the comparison of the integers. *)
Lemma of_int_ltb (a b : Z) :
  - 2 ^ 24 < a < 2 ^ 24 -> - 2 ^ 24 < b < 2 ^ 24 ->
  F32.ltb (F32.of_int a) (F32.of_int b) = (a <? b).
Proof.
  intros Ha Hb. apply eq_true_iff_eq.
  rewrite ltb_rank by apply of_int_not_nan.
  rewrite !rank_of_int by assumption. rewrite Z.ltb_lt.
  unfold F32.lex_lt. cbn [fst snd].
  destruct (Z.lt_trichotomy a 0) as [Na|[->|Pa]];
    destruct (Z.lt_trichotomy b 0) as [Nb|[->|Pb]];
    rewrite ?Z.sgn_neg, ?Z.sgn_pos, ?Z.sgn_0 by assumption; simpl Zdigits2;
    try (split; intros; lia).
  - pose proof (scaled_order (- b) (- a) ltac:(lia) ltac:(lia)) as H.
    rewrite !Zdigits2_opp in H. split.
    + intros [?|[_ [?|[? ?]]]]; [lia| |]; apply Z.opp_lt_mono, H; [left; lia|].
      right. split; [lia|]. lia.
    + intros Hlt. right. split; [reflexivity|].
      apply Z.opp_lt_mono, H in Hlt. destruct Hlt as [?|[? ?]]; [left; lia|].
      right. split; lia.
  - pose proof (scaled_order a b ltac:(lia) ltac:(lia)) as H. split.
    + intros [?|[_ [?|[? ?]]]]; [lia| |]; apply H; [left; lia|].
      right. split; [lia|]. lia.
    + intros Hlt. right. split; [reflexivity|].
      apply H in Hlt. destruct Hlt as [?|[? ?]]; [left; lia|].
      right. split; lia.
Qed.

(** ** Further facts for the selection policies *)

Section Unbeaten.
Variable beats : Z -> Process -> Process -> bool.
Variable bump : Z.

Lemma scan_unbeaten (curTime runTime : Z) (procList rest : list Process)
    (x c : nat) (pc : Process) :
  procList !! c = Some pc ->
  (forall px, px ∈ rest -> beats curTime px pc = false) ->
  scan beats curTime runTime procList rest x c = Some c.
Proof.
  intros Hc. revert x. induction rest as [|px rest IH]; intros x Hno; simpl;
    [reflexivity|].
  rewrite Hc. simpl. rewrite (Hno px) by left.
  rewrite andb_false_r. simpl. apply IH. intros q Hq. apply Hno. right. exact Hq.
Qed.

(** A first eligible process that no entry beats is the answer. *)
Lemma select_first_unbeaten (curTime : Z) (procList : list Process)
    (st : Statics) (p pf : Process) (f : nat) :
  procList !! index st = Some p ->
  isDone p = true \/ runTime st = 0 ->
  procList !! f = Some pf -> eligible curTime pf = true ->
  (forall j pj, (j < f)%nat -> procList !! j = Some pj ->
     eligible curTime pj = false) ->
  (forall px, px ∈ procList -> beats curTime px pf = false) ->
  select beats bump curTime procList st = Some (Z.of_nat f, mkStatics f bump).
Proof.
  intros Hp Hdp Hf Ef Hfirst Hno. unfold select. rewrite Hp. simpl.
  assert (Hrt : (if isDone p then 0 else runTime st) = 0).
  { destruct Hdp as [->| ->]; [reflexivity|destruct (isDone p); reflexivity]. }
  rewrite Hrt.
  destruct (first_ready_spec curTime procList 0 (index st))
    as [[_ Hnone]|(k & pk & Hk & Hpk & Ek & Hbefore)].
  { rewrite (Hnone f pf Hf) in Ef. discriminate. }
  simpl in Hk. rewrite Hk.
  assert (k = f) as ->.
  { destruct (Nat.lt_trichotomy k f) as [Hlt|[Heq|Hgt]]; [|exact Heq|].
    - rewrite (Hfirst k pk Hlt Hpk) in Ek. discriminate.
    - rewrite (Hbefore f pf Hgt Hf) in Ef. discriminate. }
  rewrite (scan_unbeaten curTime 0 procList procList 0 f pf Hf Hno). simpl.
  rewrite decision_index; [reflexivity|].
  eapply all_done_lookup; [exact Hf|].
  unfold eligible in Ef. destruct (isDone pf); [discriminate|reflexivity].
Qed.

Lemma select_defined (curTime : Z) (procList : list Process) (st : Statics) :
  is_Some (select beats bump curTime procList st)
  <-> (index st < length procList)%nat.
Proof.
  split.
  - intros [r Hr]. unfold select in Hr.
    destruct (procList !! index st) as [p|] eqn:Hp; [|discriminate].
    eapply lookup_lt_Some. eassumption.
  - intros Hlt. destruct (lookup_lt_is_Some_2 _ _ Hlt) as [p Hp].
    destruct (select_total beats bump curTime procList st p Hp) as (r & _ & ->).
    eexists. reflexivity.
Qed.
End Unbeaten.

(** ** Further facts for Round Robin *)

Lemma RoundRobin_defined_head (curTime : Z) (procList : list Process)
    (timeQuantum : Z) (s : RRStatics) :
  is_Some (RoundRobin curTime procList timeQuantum s) ->
  exists h tl p, ready s ++ arrivals curTime procList 0 = h :: tl
                 /\ procList !! h = Some p.
Proof.
  intros [r Hr].
  destruct (ready s ++ arrivals curTime procList 0) as [|h tl] eqn:E.
  - rewrite RoundRobin_undefined in Hr; [discriminate|]. rewrite E. reflexivity.
  - destruct (procList !! h) as [p|] eqn:Hp; [eauto|].
    rewrite RoundRobin_undefined in Hr; [discriminate|]. rewrite E. exact Hp.
Qed.

Lemma rr_inv_fresh (timeQuantum curTime : Z) (procList : list Process) :
  (forall p, p ∈ procList -> curTime <= startTime p -> isDone p = false) ->
  Forall consistent procList ->
  rr_inv curTime procList (RR_fresh timeQuantum).
Proof.
  intros Hun Hc. unfold rr_inv, RR_fresh. simpl.
  split; [constructor|]. split; [intros i Hi; inversion Hi|].
  split; [intros i Hi; inversion Hi|]. split; assumption.
Qed.

Lemma last_removelast_members (h : nat) (tl : list nat) (i : nat) :
  i ∈ List.last (h :: tl) h :: List.removelast (h :: tl) -> i ∈ h :: tl.
Proof.
  intros Hi.
  rewrite (app_removelast_last h (l := h :: tl)) by discriminate.
  apply elem_of_app. apply elem_of_cons in Hi as [->|Hi].
  - right. left.
  - left. exact Hi.
Qed.

Lemma hd_removelast (h : nat) (tl : list nat) :
  hd (List.last (h :: tl) h) (List.removelast (h :: tl)) = h.
Proof. destruct tl; reflexivity. Qed.

(** * Further properties of the selection policies *)

(** X1: each of the three functions starts by reading [procList[index]]: the
    call is defined exactly when the stored index lies inside the roster.
    On an empty roster no call is defined. *)
Theorem selection_defined_iff (curTime timeQuantum : Z)
    (procList : list Process) (st : Statics) :
  (is_Some (ShortestProcessNext curTime procList st)
   <-> (index st < length procList)%nat)
  /\ (is_Some (ShortestRemainingTime curTime procList timeQuantum st)
      <-> (index st < length procList)%nat)
  /\ (is_Some (HighestResponseRatioNext curTime procList st)
      <-> (index st < length procList)%nat).
Proof.
  rewrite SPN_skeleton, SRT_skeleton, HRRN_skeleton.
  repeat split; try apply select_defined; apply select_defined.
Qed.

(** X2: when no roster entry is eligible, each of the three functions
    leaves the stored index as it is and, unless every process is done,
    answers it: a process that has not arrived, or one that is done. *)
Theorem selection_gap_keeps_index (curTime timeQuantum : Z)
    (procList : list Process) (st : Statics) :
  (index st < length procList)%nat ->
  (forall p, p ∈ procList -> eligible curTime p = false) ->
  let answer := if all_done procList then -1 else Z.of_nat (index st) in
  (exists rt, ShortestProcessNext curTime procList st
              = Some (answer, mkStatics (index st) rt))
  /\ (exists rt, ShortestRemainingTime curTime procList timeQuantum st
                 = Some (answer, mkStatics (index st) rt))
  /\ (exists rt, HighestResponseRatioNext curTime procList st
                 = Some (answer, mkStatics (index st) rt)).
Proof.
  intros Hlt Hnone answer.
  destruct (lookup_lt_is_Some_2 _ _ Hlt) as [p Hp].
  assert (Hno : forall k q, procList !! k = Some q -> eligible curTime q = false).
  { intros k q Hk. apply Hnone. eapply list_elem_of_lookup_2. eassumption. }
  assert (Hans : decision procList (index st) = answer).
  { unfold answer. destruct (all_done procList) eqn:Ha.
    - apply decision_all_done, Ha.
    - apply decision_index, Ha. }
  rewrite SPN_skeleton, SRT_skeleton, HRRN_skeleton.
  rewrite !(select_no_eligible _ _ curTime procList st p Hp Hno), Hans.
  repeat split; eexists; reflexivity.
Qed.

Lemma selection_gap_keeps_index_witness :
  let l := [mkProcess 0 1 1 true; P 5 1] in
  (exists rt, ShortestProcessNext 1 l (mkStatics 0 1)
              = Some (0, mkStatics 0 rt))
  /\ (exists rt, ShortestRemainingTime 1 l 2 (mkStatics 0 0)
                 = Some (0, mkStatics 0 rt))
  /\ (exists rt, HighestResponseRatioNext 1 l (mkStatics 0 1)
                 = Some (0, mkStatics 0 rt)).
Proof.
  intros l.
  assert (Hnone : forall p, p ∈ l -> eligible 1 p = false).
  { intros p Hp. unfold l in Hp.
    repeat (apply elem_of_cons in Hp as [->|Hp]; [reflexivity|]). inversion Hp. }
  destruct (selection_gap_keeps_index 1 2 l (mkStatics 0 1)) as (H1 & _ & H3);
    [simpl; lia|exact Hnone|].
  destruct (selection_gap_keeps_index 1 2 l (mkStatics 0 0)) as (_ & H2 & _);
    [simpl; lia|exact Hnone|].
  split; [exact H1|]. split; [exact H2|exact H3].
Defined.

(** X3: the selection rule of [ShortestRemainingTime].  At a decision point
    with an eligible process in the roster, and the remaining times of the
    eligible processes below 2^24 in magnitude (where [int] to [float] is
    exact), the answer is an eligible process whose remaining time
    [totalTimeNeeded - timeScheduled] is the least among the eligible ones,
    and strictly less than that of every eligible process before it. *)
Theorem SRT_selects_least_remaining (curTime timeQuantum : Z)
    (procList : list Process) (st : Statics) (p : Process) :
  procList !! index st = Some p ->
  isDone p = true \/ runTime st = 0 ->
  (forall q, q ∈ procList -> eligible curTime q = true ->
     - 2 ^ 24 < totalTimeNeeded q - timeScheduled q < 2 ^ 24) ->
  (exists j pj, procList !! j = Some pj /\ eligible curTime pj = true) ->
  exists r pr,
    ShortestRemainingTime curTime procList timeQuantum st
    = Some (Z.of_nat r, mkStatics r 0)
    /\ procList !! r = Some pr /\ eligible curTime pr = true
    /\ (forall j pj, procList !! j = Some pj -> eligible curTime pj = true ->
          totalTimeNeeded pr - timeScheduled pr
          <= totalTimeNeeded pj - timeScheduled pj)
    /\ (forall j pj, (j < r)%nat -> procList !! j = Some pj ->
          eligible curTime pj = true ->
          totalTimeNeeded pr - timeScheduled pr
          < totalTimeNeeded pj - timeScheduled pj).
Proof.
  intros Hp Hdp Hrange Hex. rewrite SRT_skeleton.
  destruct (select_best srt_beats 0 curTime procList) with (st := st) (p := p)
    as (r & Hsel & pr & Hpr & Er & Hb & Hl); try assumption.
  - intros a b _ _. unfold srt_beats, timeRemaining.
    apply ltb_asym; apply of_int_not_nan.
  - intros a b c _ _ _. unfold srt_beats, timeRemaining.
    apply ltb_negtrans; apply of_int_not_nan.
  - assert (Hinr : pr ∈ procList) by (eapply list_elem_of_lookup_2; eassumption).
    exists r, pr. split; [exact Hsel|]. split; [exact Hpr|].
    split; [exact Er|]. split.
    + intros j pj Hj Ej.
      assert (Hinj : pj ∈ procList) by (eapply list_elem_of_lookup_2; eassumption).
      assert (Hlen : (j < length procList)%nat) by (eapply lookup_lt_Some; eassumption).
      specialize (Hb j pj Hlen Hj Ej). unfold srt_beats, timeRemaining in Hb.
      rewrite of_int_ltb in Hb by (apply Hrange; assumption).
      apply Z.ltb_ge in Hb. exact Hb.
    + intros j pj Hlt Hj Ej.
      assert (Hinj : pj ∈ procList) by (eapply list_elem_of_lookup_2; eassumption).
      specialize (Hl j pj Hlt Hj Ej). unfold srt_beats, timeRemaining in Hl.
      rewrite of_int_ltb in Hl by (apply Hrange; assumption).
      apply Z.ltb_lt in Hl. exact Hl.
Qed.

(** P0 has 4 of 5 ticks left, P1 and P2 have 2 of 2: P1 is answered, the
    first of the two with the least remaining time. *)
Lemma SRT_selects_least_remaining_witness :
  let l := [mkProcess 0 5 1 false; P 1 2; P 1 2] in
  ShortestRemainingTime 1 l 2 fresh = Some (1, mkStatics 1 0)
  /\ exists r pr,
       ShortestRemainingTime 1 l 2 fresh = Some (Z.of_nat r, mkStatics r 0)
       /\ l !! r = Some pr /\ eligible 1 pr = true
       /\ (forall j pj, l !! j = Some pj -> eligible 1 pj = true ->
             totalTimeNeeded pr - timeScheduled pr
             <= totalTimeNeeded pj - timeScheduled pj)
       /\ (forall j pj, (j < r)%nat -> l !! j = Some pj ->
             eligible 1 pj = true ->
             totalTimeNeeded pr - timeScheduled pr
             < totalTimeNeeded pj - timeScheduled pj).
Proof.
  intros l. split; [reflexivity|].
  apply (SRT_selects_least_remaining 1 2 l fresh (mkProcess 0 5 1 false)).
  - reflexivity.
  - right. reflexivity.
  - intros q Hq _. unfold l in Hq.
    repeat (apply elem_of_cons in Hq as [->|Hq]; [simpl; lia|]). inversion Hq.
  - exists 0%nat, (mkProcess 0 5 1 false). split; reflexivity.
Defined.

Lemma selection_run_terminates_witness :
  exists k ds l' st' st'',
    Z.of_nat k <= run_bound 0 [P 0 1; P 2 1]
    /\ drive ShortestProcessNext k 0 [P 0 1; P 2 1] fresh = Some (ds, l', st')
    /\ all_done l' = true
    /\ ShortestProcessNext (0 + Z.of_nat k) l' st' = Some (-1, st'').
Proof.
  apply (selection_run_terminates 0 2 [P 0 1; P 2 1] fresh ShortestProcessNext).
  - left. reflexivity.
  - repeat constructor; unfold consistent; simpl; lia.
  - simpl. lia.
Defined.

Lemma selection_conserves_without_gap_witness :
  let l := [P 0 3; P 0 2] in
  exists ds l' st',
    drive HighestResponseRatioNext (Z.to_nat (total_work_left l)) 0 l fresh
    = Some (ds, l', st')
    /\ all_done l' = true
    /\ Z.of_nat (run_ticks ds) = total_work_left l
    /\ Z.of_nat (length ds) = total_work_left l.
Proof.
  intros l.
  apply (selection_conserves_without_gap 0 2 l fresh HighestResponseRatioNext).
  - right. right. reflexivity.
  - repeat constructor; unfold consistent; simpl; lia.
  - simpl. lia.
  - repeat constructor; simpl; lia.
Defined.

(** X6: the division of [HighestResponseRatioNext] is not guarded.  When the
    ratio of the first eligible process is not a number (0/0: it needs no
    time and has not waited), no comparison with it succeeds, and that
    process is the answer whatever the ratios of the others are. *)
Theorem HRRN_nan_keeps_first (curTime : Z) (procList : list Process)
    (st : Statics) (p pf : Process) (f : nat) :
  procList !! index st = Some p ->
  isDone p = true \/ runTime st = 0 ->
  procList !! f = Some pf -> eligible curTime pf = true ->
  (forall j pj, (j < f)%nat -> procList !! j = Some pj ->
     eligible curTime pj = false) ->
  F32.is_nan (ratio curTime pf) = true ->
  HighestResponseRatioNext curTime procList st
  = Some (Z.of_nat f, mkStatics f 1).
Proof.
  intros Hp Hdp Hf Ef Hfirst Hnan. rewrite HRRN_skeleton.
  apply (select_first_unbeaten hrrn_beats 1 curTime procList st p pf f);
    try assumption.
  intros px _. unfold hrrn_beats, F32.ltb, SFltb.
  destruct (ratio curTime pf); try discriminate. reflexivity.
Qed.

(** P0 arrives at 5 and needs 0; P1 has waited 5 ticks for 1 tick of
    service, ratio 6.  P0 is answered. *)
Lemma HRRN_nan_keeps_first_witness :
  HighestResponseRatioNext 5 [P 5 0; P 0 1] fresh = Some (0, mkStatics 0 1).
Proof.
  apply (HRRN_nan_keeps_first 5 [P 5 0; P 0 1] fresh (P 5 0) (P 5 0) 0).
  - reflexivity.
  - right. reflexivity.
  - reflexivity.
  - reflexivity.
  - intros j pj Hj. lia.
  - reflexivity.
Defined.

(** * Further properties of Round Robin *)

(** X7: the first loop of [RoundRobin] keeps the queue as it is and appends
    the processes whose [startTime] is the current tick, each once, in
    roster order. *)
Theorem RoundRobin_queues_arrivals (curTime : Z) (procList : list Process)
    (rd : list nat) :
  exists arrived,
    newly_ready curTime procList 0 rd = rd ++ arrived
    /\ StronglySorted lt arrived
    /\ forall j, j ∈ arrived <->
         exists p, procList !! j = Some p /\ startTime p = curTime.
Proof.
  exists (arrivals curTime procList 0). split; [apply newly_ready_arrivals|].
  split; [apply arrivals_sorted|]. intros j. apply elem_of_arrivals.
Qed.

(** X8: [RoundRobin] reads [procList[ready[0]]] in every call, whatever the
    countdown is: the call is defined exactly when the queue, after the
    arrivals of this tick are appended, is not empty and its head is a
    roster index. *)
Theorem RoundRobin_defined_iff (curTime : Z) (procList : list Process)
    (timeQuantum : Z) (s : RRStatics) :
  is_Some (RoundRobin curTime procList timeQuantum s)
  <-> exists h p, head (newly_ready curTime procList 0 (ready s)) = Some h
                  /\ procList !! h = Some p.
Proof.
  rewrite newly_ready_arrivals. split.
  - intros H. destruct (RoundRobin_defined_head _ _ _ _ H) as (h & tl & p & E & Hp).
    exists h, p. rewrite E. split; [reflexivity|exact Hp].
  - intros (h & p & Hh & Hp). apply head_Some in Hh as [tl E].
    rewrite (RoundRobin_head curTime procList timeQuantum s h tl p E Hp).
    eexists. reflexivity.
Qed.

(** X9: with a quantum of at least 1 and the countdown within
    [0, timeQuantum], a call that is defined leaves the countdown within
    [0, timeQuantum - 1]; it answers -1 exactly when it leaves the queue
    empty, and then the countdown is 0; otherwise it answers the head of
    the queue it leaves. *)
Theorem RoundRobin_countdown (curTime : Z) (procList : list Process)
    (timeQuantum : Z) (s s' : RRStatics) (d : Z) :
  1 <= timeQuantum -> 0 <= timeToNextSched s <= timeQuantum ->
  RoundRobin curTime procList timeQuantum s = Some (d, s') ->
  0 <= timeToNextSched s' <= timeQuantum - 1
  /\ (d = -1 <-> ready s' = [])
  /\ (d = -1 -> timeToNextSched s' = 0)
  /\ (forall h, head (ready s') = Some h -> d = Z.of_nat h).
Proof.
  intros Hq Htt Hcall.
  destruct (RoundRobin_defined_head curTime procList timeQuantum s)
    as (h & tl & p & E & Hp); [eexists; eassumption|].
  rewrite (RoundRobin_head curTime procList timeQuantum s h tl p E Hp) in Hcall.
  cbv zeta in Hcall.
  destruct (Z.eqb_spec (timeToNextSched s) 0) as [E0|E0]; simpl in Hcall.
  - destruct (if isDone p then tl else tl ++ [h]) as [|r rest];
      injection Hcall as <- <-; simpl.
    + repeat split; try lia; try reflexivity. intros h' Hh'. discriminate.
    + repeat split; try lia; try discriminate. intros h' Hh'. congruence.
  - destruct (isDone p); simpl in Hcall.
    + destruct tl as [|r rest]; injection Hcall as <- <-; simpl.
      * repeat split; try lia; try reflexivity. intros h' Hh'. discriminate.
      * repeat split; try lia; try discriminate. intros h' Hh'. congruence.
    + injection Hcall as <- <-. simpl.
      repeat split; try lia; try discriminate. intros h' Hh'. congruence.
Qed.

Lemma RoundRobin_countdown_witness :
  RoundRobin 2 [P 0 3; P 1 2] 2 (mkRR 0 [0%nat; 1%nat])
  = Some (1, mkRR 1 [1%nat; 0%nat])
  /\ 0 <= 1 <= 2 - 1
  /\ (1 = -1 <-> [1%nat; 0%nat] = [])
  /\ (1 = -1 -> 1 = 0)
  /\ (forall h, head [1%nat; 0%nat] = Some h -> 1 = Z.of_nat h).
Proof.
  split; [reflexivity|].
  apply (RoundRobin_countdown 2 [P 0 3; P 1 2] 2 (mkRR 0 [0%nat; 1%nat])
           (mkRR 1 [1%nat; 0%nat]) 1).
  - lia.
  - simpl. lia.
  - reflexivity.
Defined.

(** X10: the process at the head of the queue is answered again at every
    call until the countdown reaches 0, for as long as it is not done;
    whatever arrives in the meantime queues up behind it.  A countdown
    below 0 never reaches 0. *)
Theorem RoundRobin_keeps_head (timeQuantum : Z)
    (calls : list (Z * list Process)) (tt : Z) (h : nat) (tl : list nat) :
  tt < 0 \/ Z.of_nat (length calls) <= tt ->
  Forall (fun c => not_done_at h c.2) calls ->
  run_calls_state (rr_step timeQuantum) calls (mkRR tt (h :: tl))
  = Some (replicate (length calls) (Z.of_nat h),
          mkRR (tt - Z.of_nat (length calls))
               (h :: tl ++ arrivals_of_calls calls)).
Proof. apply rr_hold. Qed.

(** P0 has two ticks of its quantum left; P1 arrives at the first of the
    two calls and waits behind. *)
Lemma RoundRobin_keeps_head_witness :
  let l := [P 0 5; P 3 2] in
  run_calls_state (rr_step 3) [(3, l); (4, l)] (mkRR 2 [0%nat])
  = Some ([0; 0], mkRR 0 [0%nat; 1%nat]).
Proof.
  intros l.
  apply (RoundRobin_keeps_head 3 [(3, l); (4, l)] 2 0 []).
  - right. simpl. lia.
  - repeat constructor; eexists; (split; [reflexivity|reflexivity]).
Defined.

(** X11: a time slice.  When the countdown is 0 and, for [timeQuantum]
    calls, nothing arrives and nobody in the queue is done, the head of the
    queue goes to the back, the process behind it is answered at each of
    the [timeQuantum] calls, and the countdown is 0 again. *)
Theorem RoundRobin_time_slice (timeQuantum : Z)
    (calls : list (Z * list Process)) (h : nat) (tl : list nat) :
  Z.of_nat (length calls) = timeQuantum -> 1 <= timeQuantum ->
  Forall (quiet_call (h :: tl)) calls ->
  run_calls_state (rr_step timeQuantum) calls (mkRR 0 (h :: tl))
  = Some (replicate (length calls) (Z.of_nat (hd h tl)), mkRR 0 (tl ++ [h])).
Proof. apply rr_slice. Qed.

Lemma RoundRobin_time_slice_witness :
  let l := [P 0 5; P 0 5; P 0 5] in
  run_calls_state (rr_step 2) [(2, l); (3, l)] (mkRR 0 [0%nat; 1%nat; 2%nat])
  = Some ([1; 1], mkRR 0 [1%nat; 2%nat; 0%nat]).
Proof.
  intros l.
  apply (RoundRobin_time_slice 2 [(2, l); (3, l)] 0 [1%nat; 2%nat]).
  - reflexivity.
  - lia.
  - repeat constructor; intros i Hi;
      repeat (apply elem_of_cons in Hi as [->|Hi];
              [eexists; split; reflexivity|]); inversion Hi.
Defined.

(** X12: a full round.  With [k] processes in the queue, the countdown at 0,
    and [k] slices of [timeQuantum] calls during which nothing arrives and
    nobody in the queue is done, each process is answered for exactly one
    slice, in queue order starting behind the head, and the queue and the
    countdown are back where they were: a queued process waits
    [(k - 1) * timeQuantum] calls between two of its slices. *)
Theorem RoundRobin_round (timeQuantum : Z)
    (slices : list (list (Z * list Process))) (h : nat) (tl : list nat) :
  1 <= timeQuantum -> length slices = length (h :: tl) ->
  Forall (fun sl => Z.of_nat (length sl) = timeQuantum
                    /\ Forall (quiet_call (h :: tl)) sl) slices ->
  run_calls_state (rr_step timeQuantum) (concat slices) (mkRR 0 (h :: tl))
  = Some (flat_map (fun i => replicate (Z.to_nat timeQuantum) (Z.of_nat i))
                   (tl ++ [h]),
          mkRR 0 (h :: tl)).
Proof.
  intros Hq Hlen Hall.
  destruct (exists_last (l := slices)) as (front & sl & ->).
  { intros ->. discriminate. }
  rewrite length_app in Hlen. simpl in Hlen.
  apply Forall_app in Hall as [Hfront Hlast].
  inversion Hlast as [|x xs [Hl Hquiet] _]; subst.
  rewrite concat_app. simpl concat. rewrite app_nil_r.
  rewrite run_calls_state_app.
  pose proof (rr_slices (Z.of_nat (length sl)) (h :: tl) front tl [] h Hq) as Hs.
  rewrite app_nil_r in Hs. rewrite Hs; [|lia|intros i Hi; exact Hi|exact Hfront].
  cbn [mbind option_bind app].
  rewrite (rr_slice (Z.of_nat (length sl)) sl); [|reflexivity|exact Hq|].
  - cbn [mbind option_bind]. rewrite hd_removelast.
    rewrite <- (app_removelast_last h (l := h :: tl)) by discriminate.
    rewrite flat_map_app. simpl flat_map. rewrite app_nil_r, Nat2Z.id.
    reflexivity.
  - eapply Forall_impl; [exact Hquiet|]. intros c.
    apply quiet_call_members. apply last_removelast_members.
Qed.

(** Three processes, quantum 2: six calls answer P1, P1, P2, P2, P0, P0 and
    the queue is [0; 1; 2] again. *)
Lemma RoundRobin_round_witness :
  let l := [P 0 9; P 0 9; P 0 9] in
  let slice t := [(t, l); (t + 1, l)] in
  run_calls_state (rr_step 2) (concat [slice 2; slice 4; slice 6])
    (mkRR 0 [0%nat; 1%nat; 2%nat])
  = Some ([1; 1; 2; 2; 0; 0], mkRR 0 [0%nat; 1%nat; 2%nat]).
Proof.
  intros l slice.
  apply (RoundRobin_round 2 [slice 2; slice 4; slice 6] 0 [1%nat; 2%nat]).
  - lia.
  - reflexivity.
  - repeat constructor; intros i Hi;
      repeat (apply elem_of_cons in Hi as [->|Hi];
              [eexists; split; reflexivity|]); inversion Hi.
Defined.

(** X13: in a driven run [RoundRobin] only answers processes that have
    arrived and are not done.  Under [rr_inv], which holds for the fresh
    statics and is kept by every call whose decision is applied, a defined
    call answers -1 and leaves the queue empty, or answers the head of the
    queue it leaves, a process that has arrived and is not done. *)
Theorem RoundRobin_answers_unfinished (timeQuantum curTime : Z)
    (procList : list Process) (s s' : RRStatics) (d : Z) :
  rr_inv curTime procList s ->
  RoundRobin curTime procList timeQuantum s = Some (d, s') ->
  rr_inv (curTime + 1) (apply_decision d procList) s'
  /\ ((d = -1 /\ ready s' = [])
      \/ exists r p, d = Z.of_nat r /\ head (ready s') = Some r
           /\ procList !! r = Some p /\ eligible curTime p = true).
Proof.
  intros Hinv Hcall.
  destruct (rr_inv_step timeQuantum curTime procList s s' d Hinv Hcall)
    as [Hinv' [(Hd & Hr & _)|(r & p & Hd & Hh & Hp & Dp & Hs & _)]].
  - split; [exact Hinv'|]. left. split; assumption.
  - split; [exact Hinv'|]. right. exists r, p.
    split; [exact Hd|]. split; [exact Hh|]. split; [exact Hp|].
    unfold eligible. rewrite Dp. simpl. apply Z.leb_le, Hs.
Qed.

Lemma RoundRobin_answers_unfinished_witness :
  let l := [P 0 3; P 1 2] in
  rr_inv 0 l (RR_fresh 2)
  /\ rr_inv (0 + 1) (apply_decision 0 l) (mkRR 1 [0%nat])
  /\ ((0 = -1 /\ ready (mkRR 1 [0%nat]) = [])
      \/ exists r p, 0 = Z.of_nat r /\ head (ready (mkRR 1 [0%nat])) = Some r
           /\ l !! r = Some p /\ eligible 0 p = true).
Proof.
  intros l.
  assert (Hinv : rr_inv 0 l (RR_fresh 2)).
  { apply rr_inv_fresh.
    - intros p Hp _. unfold l in Hp.
      repeat (apply elem_of_cons in Hp as [->|Hp]; [reflexivity|]). inversion Hp.
    - repeat constructor; unfold consistent; simpl; lia. }
  split; [exact Hinv|].
  apply (RoundRobin_answers_unfinished 2 0 l (RR_fresh 2) (mkRR 1 [0%nat]) 0 Hinv).
  reflexivity.
Defined.

(** X14: conservation for [RoundRobin].  Whenever a driven run from statics
    under [rr_inv] is defined for [n] ticks, the work left in the roster has
    gone down by exactly the number of ticks at which a process was the
    decision, every decision is -1 or a roster index, and [rr_inv] holds
    again. *)
Theorem RoundRobin_run_conserves (timeQuantum : Z) (n : nat) (curTime : Z)
    (l l' : list Process) (s s' : RRStatics) (ds : list Z) :
  rr_inv curTime l s ->
  drive (rr_step timeQuantum) n curTime l s = Some (ds, l', s') ->
  rr_inv (curTime + Z.of_nat n) l' s'
  /\ total_work_left l' = total_work_left l - Z.of_nat (run_ticks ds)
  /\ Forall (fun d => d = -1 \/ 0 <= d < Z.of_nat (length l)) ds.
Proof. apply rr_inv_run. Qed.

(** The scenario with an idle tick: P0(arrival 0, need 1), P1(arrival 2,
    need 1); three ticks, two of them run a process, no work is left. *)
Lemma RoundRobin_run_conserves_witness :
  let l := [P 0 1; P 2 1] in
  exists l' s',
    drive (rr_step 2) 3 0 l (RR_fresh 2) = Some ([0; -1; 1], l', s')
    /\ rr_inv (0 + Z.of_nat 3) l' s'
    /\ total_work_left l' = total_work_left l - Z.of_nat (run_ticks [0; -1; 1])
    /\ Forall (fun d => d = -1 \/ 0 <= d < Z.of_nat (length l)) [0; -1; 1].
Proof.
  intros l. eexists _, _. split; [reflexivity|].
  eapply (RoundRobin_run_conserves 2 3 0 l _ (RR_fresh 2)).
  - apply rr_inv_fresh.
    + intros p Hp _. unfold l in Hp.
      repeat (apply elem_of_cons in Hp as [->|Hp]; [reflexivity|]). inversion Hp.
    + repeat constructor; unfold consistent; simpl; lia.
  - reflexivity.
Defined.

(** X15: when a driven run of [RoundRobin] is defined.  Under [rr_inv] a
    call is defined exactly when the queue is not empty or a process
    arrives at this tick: the one undefined call is the one with nothing
    queued and nothing arriving, so after an idle decision, which leaves
    the queue empty, the next call needs an arrival. *)
Theorem RoundRobin_defined_in_run (timeQuantum curTime : Z)
    (procList : list Process) (s : RRStatics) :
  rr_inv curTime procList s ->
  (is_Some (RoundRobin curTime procList timeQuantum s)
   <-> ready s <> []
       \/ exists p, p ∈ procList /\ startTime p = curTime).
Proof.
  intros (_ & Hin & _ & _ & _). split.
  - intros H.
    destruct (RoundRobin_defined_head _ _ _ _ H) as (h & tl & p & E & Hp).
    destruct (ready s) as [|h0 tl0]; [right|left; discriminate].
    simpl in E.
    assert (Hh : h ∈ arrivals curTime procList 0) by (rewrite E; left).
    apply elem_of_arrivals in Hh as (q & Hq & Hs). exists q.
    split; [eapply list_elem_of_lookup_2; eassumption|exact Hs].
  - intros Hcase.
    assert (Hhead : exists h tl p,
              ready s ++ arrivals curTime procList 0 = h :: tl
              /\ procList !! h = Some p).
    { destruct (ready s) as [|h0 tl0] eqn:Er.
      - destruct Hcase as [Hne|(q & Hq & Hs)]; [contradiction|].
        apply list_elem_of_lookup_1 in Hq as [j Hj].
        assert (Hj' : j ∈ arrivals curTime procList 0).
        { apply elem_of_arrivals. eauto. }
        simpl. destruct (arrivals curTime procList 0) as [|h tl] eqn:EA;
          [inversion Hj'|].
        assert (Hh : h ∈ arrivals curTime procList 0) by (rewrite EA; left).
        apply elem_of_arrivals in Hh as (p & Hp & _). eauto.
      - destruct (Hin h0) as (p & Hp & _); [left|]. simpl. eauto. }
    destruct Hhead as (h & tl & p & E & Hp).
    rewrite (RoundRobin_head curTime procList timeQuantum s h tl p E Hp).
    eexists. reflexivity.
Qed.

(** After an idle tick the queue is empty and P0 is done; at tick 2
    nothing arrives and the call is not defined, at tick 3 P1 arrives and
    the call is defined. *)
Lemma RoundRobin_defined_in_run_witness :
  let l := [mkProcess 0 1 1 true; P 3 1] in
  ~ is_Some (RoundRobin 2 l 2 (mkRR 0 []))
  /\ is_Some (RoundRobin 3 l 2 (mkRR 0 [])).
Proof.
  intros l.
  assert (Hinv : forall t, 1 <= t -> rr_inv t l (mkRR 0 [])).
  { intros t Ht. unfold rr_inv. simpl.
    split; [constructor|]. split; [intros i Hi; inversion Hi|].
    split; [intros i Hi; inversion Hi|]. split.
    - intros p Hp Hs. unfold l in Hp.
      apply elem_of_cons in Hp as [->|Hp]; [simpl in Hs; lia|].
      apply list_elem_of_singleton in Hp. subst p. reflexivity.
    - repeat constructor; unfold consistent; simpl; intros; try lia; discriminate. }
  split.
  - intros H. apply (RoundRobin_defined_in_run 2 2 l (mkRR 0 []) (Hinv 2 ltac:(lia))) in H.
    destruct H as [H|(p & Hp & Hs)]; [apply H; reflexivity|].
    unfold l in Hp.
    repeat (apply elem_of_cons in Hp as [->|Hp]; [simpl in Hs; lia|]). inversion Hp.
  - apply (RoundRobin_defined_in_run 2 3 l (mkRR 0 []) (Hinv 3 ltac:(lia))).
    right. exists (P 3 1). split; [right; left|reflexivity].
Defined.
